(** * ytd: an asynchronous YouTube downloader (PyQt6 + pytubefix)

    A shallow embedding of [ytd.py]: the proxy validator
    [is_valid_proxy], the job coroutine [Worker.run] with its progress
    callback, and the background executor [DownloadThread].

    Python values are modelled as follows.
    - [str] is [string]; a code point above 127 is the sequence of its
      UTF-8 bytes, none of which belongs to a character class of the
      proxy pattern.
    - [int] is [Z]; [float] is IEEE-754 binary64, given by the Standard
      Library's executable specification [SpecFloat] at precision 53
      and maximal exponent 1024.
    - An exception is a value of [PyExc]; code that may raise returns
      in the monad [M], which also records, in order, the calls made to
      the collaborators and the signals emitted. *)

From Stdlib Require Import ZArith List Bool String Ascii Lia.
From Stdlib Require Import Floats.SpecFloat.
Import ListNotations.

Local Open Scope string_scope.
Local Open Scope list_scope.
Local Open Scope Z_scope.

(* ====================================================================== *)
(** * Regular expressions, as far as [is_valid_proxy] uses them *)

(** The fragment of Python's [re] syntax that occurs in the pattern:
    character classes, concatenation, alternation (for [?]) and
    iteration (for [+]). *)
Inductive regex : Type :=
| ReVoid
| ReEps
| ReClass (p : ascii -> bool)
| ReSeq (r1 r2 : regex)
| ReAlt (r1 r2 : regex)
| ReStar (r : regex).

Fixpoint nullable (r : regex) : bool :=
  match r with
  | ReVoid => false
  | ReEps => true
  | ReClass _ => false
  | ReSeq r1 r2 => nullable r1 && nullable r2
  | ReAlt r1 r2 => nullable r1 || nullable r2
  | ReStar _ => true
  end.

(** Brzozowski derivative of [r] by the character [c]. *)
Fixpoint deriv (c : ascii) (r : regex) : regex :=
  match r with
  | ReVoid => ReVoid
  | ReEps => ReVoid
  | ReClass p => if p c then ReEps else ReVoid
  | ReSeq r1 r2 =>
      if nullable r1
      then ReAlt (ReSeq (deriv c r1) r2) (deriv c r2)
      else ReSeq (deriv c r1) r2
  | ReAlt r1 r2 => ReAlt (deriv c r1) (deriv c r2)
  | ReStar r1 => ReSeq (deriv c r1) (ReStar r1)
  end.

(** [fullmatch r s]: the whole of [s] belongs to the language of [r]. *)
Fixpoint fullmatch (r : regex) (s : string) : bool :=
  match s with
  | EmptyString => nullable r
  | String c s' => fullmatch (deriv c r) s'
  end.

Definition ReChar (c : ascii) : regex := ReClass (Ascii.eqb c).

Fixpoint ReLit (s : string) : regex :=
  match s with
  | EmptyString => ReEps
  | String c s' => ReSeq (ReChar c) (ReLit s')
  end.

(** [r?], [r+] and [r{1,n+1}]. *)
Definition ReOpt (r : regex) : regex := ReAlt r ReEps.
Definition RePlus (r : regex) : regex := ReSeq r (ReStar r).
Fixpoint ReUpTo (n : nat) (r : regex) : regex :=
  match n with
  | O => r
  | S n' => ReSeq r (ReOpt (ReUpTo n' r))
  end.

Definition in_range (lo hi c : ascii) : bool :=
  (nat_of_ascii lo <=? nat_of_ascii c)%nat && (nat_of_ascii c <=? nat_of_ascii hi)%nat.

Definition is_digit (c : ascii) : bool := in_range "0" "9" c.

(** The class [[a-zA-Z0-9\-\.]]. *)
Definition is_host_char (c : ascii) : bool :=
  in_range "a" "z" c || in_range "A" "Z" c || in_range "0" "9" c
  || Ascii.eqb c "-" || Ascii.eqb c ".".

(** [$] without [re.MULTILINE]: the end of the string, or just before
    a newline that is the last character of the string. *)
Fixpoint chop_final_newline (s : string) : option string :=
  match s with
  | EmptyString => None
  | String c EmptyString => if Ascii.eqb c "010" then Some EmptyString else None
  | String c s' => option_map (String c) (chop_final_newline s')
  end.

(** [pattern.match(s)] for a pattern [^ r $]: the match is anchored at
    the start by [match] itself, and [$] admits the two end positions
    above.  The engine backtracks over every way to match [r], so a
    match exists exactly when [r] matches up to one of them. *)
Definition re_match_to_dollar (r : regex) (s : string) : bool :=
  fullmatch r s
  || match chop_final_newline s with
     | Some s' => fullmatch r s'
     | None => false
     end.

(* ====================================================================== *)
(** * [is_valid_proxy] *)

(** [^https?://(?:(?:[a-zA-Z0-9\-\.]+)(?:\:[0-9]{1,5})?)$] *)
Definition proxy_pattern : regex :=
  ReSeq (ReLit "http")
    (ReSeq (ReOpt (ReChar "s"))
       (ReSeq (ReLit "://")
          (ReSeq (RePlus (ReClass is_host_char))
             (ReOpt (ReSeq (ReChar ":") (ReUpTo 4 (ReClass is_digit))))))).

Definition is_valid_proxy (proxy : string) : bool :=
  if String.eqb proxy "" then true
  else re_match_to_dollar proxy_pattern proxy.

(* ====================================================================== *)
(** * Python values: exceptions, integers and floats *)

(** An exception, as far as the program looks at it: every handler in
    the file is [except Exception as exc] and formats [exc] with
    [str].  Exceptions that do not derive from [Exception]
    (interpreter exit, task cancellation) are not modelled. *)
Record PyExc : Type := { exc_type : string; exc_str : string }.

Definition ZeroDivisionError (msg : string) : PyExc :=
  {| exc_type := "ZeroDivisionError"; exc_str := msg |}.
Definition OverflowError (msg : string) : PyExc :=
  {| exc_type := "OverflowError"; exc_str := msg |}.
Definition ValueError (msg : string) : PyExc :=
  {| exc_type := "ValueError"; exc_str := msg |}.
Definition RuntimeError (msg : string) : PyExc :=
  {| exc_type := "RuntimeError"; exc_str := msg |}.
Definition AttributeError (msg : string) : PyExc :=
  {| exc_type := "AttributeError"; exc_str := msg |}.

(** binary64 *)
Definition prec : Z := 53.
Definition emax : Z := 1024.

Definition float : Type := spec_float.

(** An integer as an exact, not yet rounded, operand. *)
Definition SF_of_Z (n : Z) : spec_float :=
  match n with
  | Z0 => S754_zero false
  | Zpos p => S754_finite false p 0
  | Zneg p => S754_finite true p 0
  end.

(** [a / b] on two [int]s: the quotient of the two integers, rounded
    once to the nearest binary64 (ties to even). *)
Definition int_truediv (a b : Z) : PyExc + float :=
  if b =? 0 then inl (ZeroDivisionError "division by zero")
  else
    match SFdiv prec emax (SF_of_Z a) (SF_of_Z b) with
    | S754_infinity _ =>
        inl (OverflowError "integer division result too large for a float")
    | q => inr q
    end.

(** [float(n)] for an [int] operand of a float operation. *)
Definition float_of_int (n : Z) : PyExc + float :=
  match binary_normalize prec emax n 0 false with
  | S754_infinity _ => inl (OverflowError "int too large to convert to float")
  | x => inr x
  end.

(** [x * n] for a float [x] and an [int] [n]. *)
Definition float_mul_int (x : float) (n : Z) : PyExc + float :=
  match float_of_int n with
  | inl e => inl e
  | inr y => inr (SFmul prec emax x y)
  end.

(** [int(x)]: truncation towards zero. *)
Definition int_of_float (x : float) : PyExc + Z :=
  match x with
  | S754_zero _ => inr 0
  | S754_finite s m e =>
      let a := match e with
               | Zneg k => Z.shiftr (Zpos m) (Zpos k)
               | _ => Z.shiftl (Zpos m) e
               end in
      inr (if s then - a else a)
  | S754_infinity _ => inl (OverflowError "cannot convert float infinity to integer")
  | S754_nan => inl (ValueError "cannot convert float NaN to integer")
  end.

(** [int(downloaded / total * 100)] *)
Definition percent_of (downloaded total : Z) : PyExc + Z :=
  match int_truediv downloaded total with
  | inl e => inl e
  | inr q =>
      match float_mul_int q 100 with
      | inl e => inl e
      | inr p => int_of_float p
      end
  end.

(** The percentage as the specification words it: the floor of
    [bytesDownloaded / totalBytes * 100] in exact arithmetic, clamped
    to the interval from 0 to 100. *)
Definition percent_spec (bytesDownloaded totalBytes : Z) : Z :=
  Z.max 0 (Z.min 100 (bytesDownloaded * 100 / totalBytes)).

(* ====================================================================== *)
(** * Rounding to binary64, as the proofs describe it *)

(** The definitions of this part serve the proofs about [percent_of];
    the program is not modelled by them but by [SFdiv], [SFmul] and
    [binary_round_aux] of the Standard Library.

    [located N D r]: the shift record [r] holds the integer part of
    [N / D], and its round and sticky bits tell where the fractional
    part lies with respect to one half. *)
Definition located (N D : Z) (r : shr_record) : Prop :=
  0 <= shr_m r
  /\ 0 <= N - shr_m r * D < D
  /\ (shr_r r = true <-> D <= 2 * (N - shr_m r * D))
  /\ (shr_s r = true <-> (N - shr_m r * D <> 0 /\ 2 * (N - shr_m r * D) <> D)).

(** The integer nearest to [N / D], ties going to the even one. *)
Definition rne (N D : Z) : Z :=
  let m := N / D in
  let R := N mod D in
  if 2 * R <? D then m
  else if D <? 2 * R then m + 1
  else if Z.even m then m else m + 1.

(** The exponent of the binary64 grid for a number of magnitude [k]. *)
Definition fexp64 (k : Z) : Z := fexp prec emax k.

(** Mantissa and exponent of the rounding of [N / D * 2^e]. *)
Definition round_pair (N D e : Z) : Z * Z :=
  let n := Z.max 0 (fexp64 (Zdigits2 (N / D) + e) - e) in
  (rne N (2 ^ n * D), e + n).

(** The float of mantissa [m] and exponent [e], or an infinity when
    the exponent is past the largest one. *)
Definition finite_or_inf (m e : Z) : spec_float :=
  match m with
  | Z0 => S754_zero false
  | Zpos p => if e <=? emax - prec then S754_finite false p e else S754_infinity false
  | Zneg _ => S754_nan
  end.

(** A mantissa of [2^53], reached by rounding up, is renormalised. *)
Definition float_of_pair (me : Z * Z) : spec_float :=
  let (m, e) := me in
  if m =? 2 ^ 53 then finite_or_inf (2 ^ 52) (e + 1) else finite_or_inf m e.

(** The value [m * 2^e] of a pair, scaled by [2^K] to an integer. *)
Definition pairval (K : Z) (me : Z * Z) : Z := fst me * 2 ^ (snd me + K).

(** A scale below which no exponent of the proofs falls. *)
Definition scale_exp : Z := 1200.

(** The value of a non-negative float, scaled by [2^scale_exp]. *)
Definition sval (f : spec_float) : Z :=
  match f with
  | S754_finite false m e => Zpos m * 2 ^ (e + scale_exp)
  | _ => 0
  end.

(** A zero, or a positive finite float whose exponent is at least
    [lo]. *)
Definition nonneg_finite (lo : Z) (f : spec_float) : Prop :=
  f = S754_zero false \/ exists m e, f = S754_finite false m e /\ lo <= e.

(** The exponent at which [SFdiv] computes the integer quotient of [d]
    by [t], and the numerator it divides. *)
Definition div_exp (d t : Z) : Z := Z.min (fexp64 (Zdigits2 d - Zdigits2 t)) 0.
Definition div_num (d t : Z) : Z := d * 2 ^ (- div_exp d t).

(** [d / t] on two [int]s, when it does not raise. *)
Definition quot (d t : Z) : spec_float := SFdiv prec emax (SF_of_Z d) (SF_of_Z t).

(** [float(100)] *)
Definition f100 : spec_float := S754_finite false 7036874417766400 (-46).

(** [q * 100] *)
Definition times100 (q : spec_float) : spec_float := SFmul prec emax q f100.

(** What [percent_of] returns for a well-formed progress event, as the
    proofs compute it: the scaled value of the product, cut at the
    binary point. *)
Definition pct (downloaded total : Z) : Z :=
  sval (times100 (quot downloaded total)) / 2 ^ scale_exp.

(** Each element is at most the next one; at least the next one. *)
Fixpoint nondecreasing (l : list Z) : Prop :=
  match l with
  | x :: ((y :: _) as l') => x <= y /\ nondecreasing l'
  | _ => True
  end.

Fixpoint nonincreasing (l : list Z) : Prop :=
  match l with
  | x :: ((y :: _) as l') => y <= x /\ nonincreasing l'
  | _ => True
  end.

(* ====================================================================== *)
(** * Signals, collaborators and the effect monad *)

(** The two signals of [Worker]: [progress = pyqtSignal(int)] and
    [finished = pyqtSignal(str)]. *)
Inductive Signal : Type :=
| progress (percent : Z)
| finished (msg : string).

(** What a run of the coroutine does, in order: the calls into
    pytubefix and the signals it emits. *)
Inductive Event : Type :=
| CallYouTube (url : string) (proxies : option (list (string * string)))
| GetStreams
| GetFilesize
| CallDownload (output_path filename_prefix : string)
| Emit (s : Signal).

(** A computation that records events and either raises or returns. *)
Definition M (A : Type) : Type := (list Event * (PyExc + A))%type.

Definition ret {A : Type} (a : A) : M A := ([], inr a).

Definition raise {A : Type} (e : PyExc) : M A := ([], inl e).

Definition bind {A B : Type} (m : M A) (k : A -> M B) : M B :=
  match m with
  | (t, inl e) => (t, inl e)
  | (t, inr a) => let (t', r) := k a in (t ++ t', r)
  end.

(** [try: body  except Exception as exc: handler exc] *)
Definition try_except {A : Type} (body : M A) (handler : PyExc -> M A) : M A :=
  match body with
  | (t, inl e) => let (t', r) := handler e in (t ++ t', r)
  | (t, inr a) => (t, inr a)
  end.

(** A call into a collaborator: the event, then the collaborator's
    answer. *)
Definition call {A : Type} (ev : Event) (answer : PyExc + A) : M A := ([ev], answer).

Definition lift {A : Type} (r : PyExc + A) : M A := ([], r).

Notation "x <- m ;; k" := (bind m (fun x => k))
  (at level 61, m at next level, right associativity).
Notation "m ;;; k" := (bind m (fun _ => k))
  (at level 61, right associativity).

Definition trace {A : Type} (m : M A) : list Event := fst m.
Definition outcome {A : Type} (m : M A) : PyExc + A := snd m.

(** The signals among the events, in emission order. *)
Fixpoint signals (t : list Event) : list Signal :=
  match t with
  | [] => []
  | Emit s :: t' => s :: signals t'
  | _ :: t' => signals t'
  end.

Definition is_finished (s : Signal) : bool :=
  match s with finished _ => true | progress _ => false end.

Definition is_progress (s : Signal) : bool :=
  match s with progress _ => true | finished _ => false end.

(** Range of the C [int] that carries the argument of [progress]. *)
Definition INT_MIN : Z := - 2147483648.
Definition INT_MAX : Z := 2147483647.

(** [self.progress.emit(n)]: PyQt converts [n] to a C [int] and refuses
    a value outside its range. *)
Definition emit_progress (n : Z) : M unit :=
  if (INT_MIN <=? n) && (n <=? INT_MAX) then ([Emit (progress n)], inr tt)
  else raise (OverflowError
    "argument 1 overflowed: value must be in the range -2147483648 to 2147483647").

(** [self.finished.emit(msg)] *)
Definition emit_finished (msg : string) : M unit := ([Emit (finished msg)], inr tt).

(* ====================================================================== *)
(** * The pytubefix collaborator *)

(** The program reaches pytubefix through [YouTube(url, proxies=...)],
    [yt.streams], the [StreamQuery] methods [filter], [order_by],
    [desc] and [first], and the [Stream] members [filesize],
    [on_progress] and [download].  Each is modelled by what it answers
    to the program. *)
Module pytubefix.

(** A progressive stream carries audio and video; an adaptive one
    carries exactly one of them. *)
Inductive StreamType : Type := Progressive | VideoOnly | AudioOnly.

Record Stream : Type := {
  itag : Z;
  stream_type : StreamType;
  (** the number in a resolution such as "720p"; [None] when the
      stream has no resolution *)
  resolution : option Z;
  (** the number in an audio bit rate such as "128kbps" *)
  abr : option Z;
  (** the [filesize] property asks the server, and may raise *)
  filesize : PyExc + Z;
  (** the [bytes_remaining] that [download] passes to [on_progress],
      one per chunk received *)
  chunks : list Z;
  (** how [download] ends after the last chunk: it raises, or it
      returns the path of the file *)
  download_result : PyExc + string
}.

Definition is_progressive (s : Stream) : bool :=
  match stream_type s with Progressive => true | _ => false end.

Definition includes_audio_track (s : Stream) : bool :=
  match stream_type s with Progressive | AudioOnly => true | VideoOnly => false end.

Definition includes_video_track (s : Stream) : bool :=
  match stream_type s with Progressive | VideoOnly => true | AudioOnly => false end.

(** the predicate of [filter(only_audio=True)] *)
Definition only_audio (s : Stream) : bool :=
  includes_audio_track s && negb (includes_video_track s).

Definition StreamQuery : Type := list Stream.

Definition filter (p : Stream -> bool) (q : StreamQuery) : StreamQuery :=
  List.filter p q.

Definition has_attribute (attr : Stream -> option Z) (s : Stream) : bool :=
  match attr s with Some _ => true | None => false end.

Definition key_of (attr : Stream -> option Z) (s : Stream) : Z :=
  match attr s with Some k => k | None => 0 end.

(** [sorted] is stable: an element goes before the elements of equal
    key that followed it in the input. *)
Fixpoint insert_by (key : Stream -> Z) (x : Stream) (l : list Stream) : list Stream :=
  match l with
  | [] => [x]
  | y :: l' => if key x <=? key y then x :: y :: l' else y :: insert_by key x l'
  end.

Definition sorted (key : Stream -> Z) (l : list Stream) : list Stream :=
  fold_right (insert_by key) [] l.

(** [ascending key l]: every element of [l] is below, by [key], all
    those after it. *)
Fixpoint ascending (key : Stream -> Z) (l : list Stream) : Prop :=
  match l with
  | [] => True
  | x :: l' => (forall y, In y l' -> key x <= key y) /\ ascending key l'
  end.

(** [order_by(attr)] drops the streams whose attribute is [None] and
    sorts the others in ascending order of its number. *)
Definition order_by (attr : Stream -> option Z) (q : StreamQuery) : StreamQuery :=
  sorted (key_of attr) (List.filter (has_attribute attr) q).

Definition desc (q : StreamQuery) : StreamQuery := rev q.

Definition first (q : StreamQuery) : option Stream :=
  match q with
  | [] => None
  | s :: _ => Some s
  end.

Record YouTube : Type := {
  (** the [streams] property fetches the stream list, and may raise *)
  streams : PyExc + StreamQuery
}.

(** The constructor [YouTube(url, proxies=...)]: it raises, or it
    returns the object. *)
Definition Constructor : Type :=
  string -> option (list (string * string)) -> PyExc + YouTube.

(** [download] calls [on_progress] once per chunk, in order; an
    exception raised by the callback leaves [download] at once. *)
Fixpoint feed (on_progress : Z -> M unit) (remaining : list Z) : M unit :=
  match remaining with
  | [] => ret tt
  | r :: rest => on_progress r ;;; feed on_progress rest
  end.

Definition download (s : Stream) (on_progress : Z -> M unit)
    (output_path filename_prefix : string) : M string :=
  call (CallDownload output_path filename_prefix) (inr tt) ;;;
  feed on_progress (chunks s) ;;;
  lift (download_result s).

End pytubefix.

(* ====================================================================== *)
(** * [Worker] *)

Module Worker.
Import pytubefix.

Record t : Type := {
  url : string;
  out_path : string;
  proxy : string;
  fmt : string   (** "video" or "audio" *)
}.

(** [{"http": self.proxy, "https": self.proxy} if self.proxy else None] *)
Definition proxies_arg (self : t) : option (list (string * string)) :=
  if String.eqb (proxy self) "" then None
  else Some [("http", proxy self); ("https", proxy self)].

Definition msg_connect_error (exc : PyExc) : string :=
  ("❌ Ошибка при подключении к YouTube: " ++ exc_str exc)%string.

Definition msg_download_error (exc : PyExc) : string :=
  ("❌ Ошибка при скачивании: " ++ exc_str exc)%string.

Definition msg_saved (self : t) : string :=
  ("✅ Сохранено: " ++ out_path self)%string.

Definition no_stream_found : PyExc :=
  RuntimeError "Подходящий поток не найден".

(** The closure [_on_progress]; [total] is the variable of [run] it
    captures.  Its first two arguments are not used. *)
Definition _on_progress (total : Z) (bytes_remaining : Z) : M unit :=
  let downloaded := total - bytes_remaining in
  p <- lift (percent_of downloaded total) ;;
  emit_progress p.

(** The stream that the conditional expression of [run] selects. *)
Definition select_stream (self : t) (q : StreamQuery) : option Stream :=
  if String.eqb (fmt self) "video"
  then first (desc (order_by resolution (filter is_progressive q)))
  else first (desc (order_by abr (filter only_audio q))).

(** The two branches of that expression, by what they ask of a
    stream and by what they rank it. *)
Definition kind_filter (self : t) : Stream -> bool :=
  if String.eqb (fmt self) "video" then is_progressive else only_audio.

Definition quality_rank (self : t) : Stream -> option Z :=
  if String.eqb (fmt self) "video" then resolution else abr.

(** The coroutine [run], driven to its end by the event loop.  The
    first [try] either yields the [YouTube] object or, in its
    handler, emits [finished] and returns from [run]. *)
Definition run (YouTube : Constructor) (self : t) : M unit :=
  r <- try_except
         (yt <- call (CallYouTube (url self) (proxies_arg self))
                     (YouTube (url self) (proxies_arg self)) ;;
          ret (Some yt))
         (fun exc =>
            emit_finished (msg_connect_error exc) ;;;
            ret None) ;;
  match r with
  | None => ret tt
  | Some yt =>
      try_except
        (q <- call GetStreams (streams yt) ;;
         match select_stream self q with
         | None => raise no_stream_found
         | Some stream =>
             total <- call GetFilesize (filesize stream) ;;
             download stream (_on_progress total) (out_path self) "" ;;;
             emit_finished (msg_saved self)
         end)
        (fun exc => emit_finished (msg_download_error exc))
  end.

End Worker.

(* ====================================================================== *)
(** * [DownloadThread] *)

(** The executor is used from the window's thread; each method is
    modelled by the state in which it leaves the object once it has
    returned.  The body of the background thread is the separate step
    [DownloadThread.run]. *)
Module DownloadThread.

(** How a method call ends: it returns, it raises, or it never
    returns. *)
Inductive Result (A : Type) : Type :=
| Returned (a : A)
| Raised (e : PyExc)
| Blocked.
Arguments Returned {A} a.
Arguments Raised {A} e.
Arguments Blocked {A}.

(** A [QThread]: [isRunning()] holds from [start()] until [run]
    returns. *)
Inductive QThreadState : Type := NotStarted | Running | Finished.

(** An asyncio event loop: whether [run_forever] is serving it, and
    the coroutines handed to it so far. *)
Record EventLoop : Type := {
  serving : bool;
  scheduled : list Worker.t
}.

Record t : Type := {
  loop : option EventLoop;       (** [self.loop] *)
  qthread : QThreadState;
  spawned : nat                  (** threads started so far *)
}.

Definition __init__ : t :=
  {| loop := None; qthread := NotStarted; spawned := 0 |}.

Definition isRunning (self : t) : bool :=
  match qthread self with Running => true | _ => false end.

(** [start] is inherited from [QThread] unchanged: it begins the
    execution of [run] in a new thread, and does nothing if the
    thread is already running. *)
Definition start (self : t) : Result unit * t :=
  if isRunning self then (Returned tt, self)
  else (Returned tt,
        {| loop := loop self; qthread := Running; spawned := S (spawned self) |}).

(** The body of the thread, up to the point where [run_forever]
    serves the new loop. *)
Definition run (self : t) : t :=
  {| loop := Some {| serving := true; scheduled := [] |};
     qthread := qthread self;
     spawned := spawned self |}.

Definition not_running : PyExc := RuntimeError "DownloadThread не запущен".

(** [asyncio.run_coroutine_threadsafe(coro, loop)] calls
    [loop.call_soon_threadsafe]; the future it returns is modelled by
    the position of the coroutine among those scheduled. *)
Definition schedule_task (self : t) (coro : Worker.t) : Result nat * t :=
  if negb (isRunning self) then (Raised not_running, self)
  else
    match loop self with
    | None =>
        (Raised (AttributeError
           "'NoneType' object has no attribute 'call_soon_threadsafe'"), self)
    | Some l =>
        (Returned (List.length (scheduled l)),
         {| loop := Some {| serving := serving l; scheduled := scheduled l ++ [coro] |};
            qthread := qthread self;
            spawned := spawned self |})
    end.

(** [stop]: when the guard holds, [loop.stop] ends [run_forever],
    [run] returns and [wait] returns once the thread has finished.
    If [self.loop] is not the loop that the running thread serves,
    stopping it does not end the thread and [wait] does not
    return. *)
Definition stop (self : t) : Result unit * t :=
  match loop self with
  | Some l =>
      if isRunning self then
        if serving l then
          (Returned tt,
           {| loop := Some {| serving := false; scheduled := scheduled l |};
              qthread := Finished;
              spawned := spawned self |})
        else (Blocked, self)
      else (Returned tt, self)
  | None => (Returned tt, self)
  end.

End DownloadThread.

(* ====================================================================== *)
(** * Sample values *)

(** The executor once [start] has returned and the thread serves its
    loop, and the same executor after [stop]. *)
Definition running_executor : DownloadThread.t :=
  DownloadThread.run (snd (DownloadThread.start DownloadThread.__init__)).

Definition stopped_executor : DownloadThread.t :=
  snd (DownloadThread.stop running_executor).

(** Two audio-only streams of 128 and 256 kbps, and a video stream. *)
Definition audio_128 : pytubefix.Stream :=
  {| pytubefix.itag := 140;
     pytubefix.stream_type := pytubefix.AudioOnly;
     pytubefix.resolution := None;
     pytubefix.abr := Some 128;
     pytubefix.filesize := inr 1000;
     pytubefix.chunks := [600; 200; 0];
     pytubefix.download_result := inr "/tmp/a128.m4a" |}.

Definition audio_256 : pytubefix.Stream :=
  {| pytubefix.itag := 141;
     pytubefix.stream_type := pytubefix.AudioOnly;
     pytubefix.resolution := None;
     pytubefix.abr := Some 256;
     pytubefix.filesize := inr 2000;
     pytubefix.chunks := [1500; 1000; 500; 0];
     pytubefix.download_result := inr "/tmp/a256.m4a" |}.

Definition video_720 : pytubefix.Stream :=
  {| pytubefix.itag := 22;
     pytubefix.stream_type := pytubefix.Progressive;
     pytubefix.resolution := Some 720;
     pytubefix.abr := Some 192;
     pytubefix.filesize := inr 100;
     pytubefix.chunks := [71; 0];
     pytubefix.download_result := inr "/tmp/v720.mp4" |}.

(** An audio-only stream whose transfer breaks off after two chunks. *)
Definition audio_broken : pytubefix.Stream :=
  {| pytubefix.itag := 139;
     pytubefix.stream_type := pytubefix.AudioOnly;
     pytubefix.resolution := None;
     pytubefix.abr := Some 48;
     pytubefix.filesize := inr 400;
     pytubefix.chunks := [300; 200];
     pytubefix.download_result :=
       inl {| exc_type := "ConnectionResetError";
              exc_str := "[Errno 104] Connection reset by peer" |} |}.


Definition YouTube_with (q : pytubefix.StreamQuery) : pytubefix.Constructor :=
  fun _ _ => inr {| pytubefix.streams := inr q |}.

Definition bad_url_job : Worker.t :=
  {| Worker.url := "not-a-url";
     Worker.out_path := "/tmp";
     Worker.proxy := "";
     Worker.fmt := "video" |}.

Definition audio_job : Worker.t :=
  {| Worker.url := "https://www.youtube.com/watch?v=dQw4w9WgXcQ";
     Worker.out_path := "/tmp";
     Worker.proxy := "";
     Worker.fmt := "audio" |}.

Definition video_job : Worker.t :=
  {| Worker.url := "https://www.youtube.com/watch?v=dQw4w9WgXcQ";
     Worker.out_path := "/tmp";
     Worker.proxy := "http://127.0.0.1:8881";
     Worker.fmt := "video" |}.

(* ====================================================================== *)
(** * Several jobs, and more sample values *)

(** [schedule_task] called for each coroutine of a list in turn: the
    results in order, and the executor as the last call leaves it. *)
Fixpoint schedule_all (self : DownloadThread.t) (coros : list Worker.t)
    : list (DownloadThread.Result nat) * DownloadThread.t :=
  match coros with
  | [] => ([], self)
  | coro :: rest =>
      let (r, self') := DownloadThread.schedule_task self coro in
      let (rs, self'') := schedule_all self' rest in
      (r :: rs, self'')
  end.

(** The executor between [start] and the moment the thread has set
    [self.loop]. *)
Definition starting_executor : DownloadThread.t :=
  snd (DownloadThread.start DownloadThread.__init__).

(** An audio-only stream of size zero whose transfer would succeed. *)
Definition audio_empty : pytubefix.Stream :=
  {| pytubefix.itag := 599;
     pytubefix.stream_type := pytubefix.AudioOnly;
     pytubefix.resolution := None;
     pytubefix.abr := Some 32;
     pytubefix.filesize := inr 0;
     pytubefix.chunks := [0];
     pytubefix.download_result := inr "/tmp/empty.m4a" |}.

(** An audio-only stream whose size cannot be fetched. *)
Definition audio_sizeless : pytubefix.Stream :=
  {| pytubefix.itag := 600;
     pytubefix.stream_type := pytubefix.AudioOnly;
     pytubefix.resolution := None;
     pytubefix.abr := Some 64;
     pytubefix.filesize :=
       inl {| exc_type := "HTTPError"; exc_str := "HTTP Error 403: Forbidden" |};
     pytubefix.chunks := [10; 0];
     pytubefix.download_result := inr "/tmp/sizeless.m4a" |}.

(** A constructor whose object cannot list its streams. *)
Definition YouTube_unlistable : pytubefix.Constructor :=
  fun _ _ => inr {| pytubefix.streams :=
                      inl {| exc_type := "URLError";
                             exc_str := "<urlopen error timed out>" |} |}.
(* ====================================================================== *)
(** * The language of a regular expression *)

(** The strings that [r] denotes, given declaratively.  An iteration
    is unfolded by a piece that is not empty. *)
Inductive lang : regex -> string -> Prop :=
| lang_eps : lang ReEps ""
| lang_class (p : ascii -> bool) (c : ascii) :
    p c = true -> lang (ReClass p) (String c "")
| lang_seq (r1 r2 : regex) (s1 s2 : string) :
    lang r1 s1 -> lang r2 s2 -> lang (ReSeq r1 r2) (s1 ++ s2)%string
| lang_alt_l (r1 r2 : regex) (s : string) :
    lang r1 s -> lang (ReAlt r1 r2) s
| lang_alt_r (r1 r2 : regex) (s : string) :
    lang r2 s -> lang (ReAlt r1 r2) s
| lang_star_nil (r : regex) : lang (ReStar r) ""
| lang_star_cons (r : regex) (c : ascii) (s1 s2 : string) :
    lang r (String c s1) -> lang (ReStar r) s2 ->
    lang (ReStar r) (String c (s1 ++ s2)%string).

(** Every character of [s] satisfies [p]. *)
Fixpoint string_forall (p : ascii -> bool) (s : string) : bool :=
  match s with
  | EmptyString => true
  | String c s' => p c && string_forall p s'
  end.

(* ====================================================================== *)
(** * [str.strip] *)

(** A byte of the UTF-8 form of a [str], by its value. *)
Definition byte_in (lo hi : nat) (c : ascii) : bool :=
  (lo <=? nat_of_ascii c)%nat && (nat_of_ascii c <=? hi)%nat.

Definition byte_is (n : nat) (c : ascii) : bool :=
  (nat_of_ascii c =? n)%nat.

(** The code points for which [str.isspace] holds, by the length of
    their UTF-8 form.  One byte: U+0009 to U+000D, U+001C to U+001F
    and U+0020. *)
Definition space1 (c : ascii) : bool :=
  byte_in 0x09 0x0D c || byte_in 0x1C 0x1F c || byte_is 0x20 c.

(** Two bytes: U+0085 and U+00A0. *)
Definition space2 (c1 c2 : ascii) : bool :=
  byte_is 0xC2 c1 && (byte_is 0x85 c2 || byte_is 0xA0 c2).

(** Three bytes: U+1680, U+2000 to U+200A, U+2028, U+2029, U+202F,
    U+205F and U+3000. *)
Definition space3 (c1 c2 c3 : ascii) : bool :=
  (byte_is 0xE1 c1 && byte_is 0x9A c2 && byte_is 0x80 c3)
  || (byte_is 0xE2 c1 && byte_is 0x80 c2
      && (byte_in 0x80 0x8A c3 || byte_in 0xA8 0xA9 c3 || byte_is 0xAF c3))
  || (byte_is 0xE2 c1 && byte_is 0x81 c2 && byte_is 0x9F c3)
  || (byte_is 0xE3 c1 && byte_is 0x80 c2 && byte_is 0x80 c3).

(** [s.lstrip()]: the string from its first code point that is not
    white space. *)
Fixpoint lstrip (s : string) : string :=
  match s with
  | EmptyString => EmptyString
  | String c1 s1 =>
      if space1 c1 then lstrip s1
      else
        match s1 with
        | EmptyString => s
        | String c2 s2 =>
            if space2 c1 c2 then lstrip s2
            else
              match s2 with
              | EmptyString => s
              | String c3 s3 => if space3 c1 c2 c3 then lstrip s3 else s
              end
        end
  end.

(** [s.rstrip()]: the string up to the point from which only white
    space follows. *)
Fixpoint rstrip (s : string) : string :=
  match s with
  | EmptyString => EmptyString
  | String c s' =>
      if String.eqb (lstrip s) "" then EmptyString else String c (rstrip s')
  end.

(** [s.strip()] *)
Definition strip (s : string) : string := rstrip (lstrip s).

(* ====================================================================== *)
(** * [MainWindow] *)

Module MainWindow.

(** What [start_download] asks of the operating system: [os.getcwd()],
    [os.path.isdir(p)] and [os.access(p, os.W_OK)]. *)
Record OS : Type := {
  getcwd : PyExc + string;
  isdir : string -> bool;
  access_W_OK : string -> bool
}.

(** The window: the texts of the three line edits, the paragraphs of
    the log, and the executor. *)
Record t : Type := {
  url_edit : string;
  folder_edit : string;
  proxy_edit : string;
  log : list string;
  thread : DownloadThread.t
}.

Definition log_append (self : t) (line : string) : t :=
  {| url_edit := url_edit self;
     folder_edit := folder_edit self;
     proxy_edit := proxy_edit self;
     log := log self ++ [line];
     thread := thread self |}.

Definition set_thread (self : t) (th : DownloadThread.t) : t :=
  {| url_edit := url_edit self;
     folder_edit := folder_edit self;
     proxy_edit := proxy_edit self;
     log := log self;
     thread := th |}.

Definition msg_url_required : string := "❌ URL is required".

Definition msg_no_directory (out_path : string) : string :=
  ("❌ Каталог не существует: " ++ out_path)%string.

Definition msg_not_writable (out_path : string) : string :=
  ("❌ Нет прав на запись в каталоге: " ++ out_path)%string.

Definition msg_bad_proxy : string :=
  "⚠️ Неверный формат HTTP‑прокси. Ожидается http://host:port".

(** [self.folder_edit.text().strip() or os.getcwd()] *)
Definition out_path_of (os : OS) (self : t) : PyExc + string :=
  let folder := strip (folder_edit self) in
  if String.eqb folder "" then getcwd os else inr folder.

(** [start_download(fmt)].  The two [connect] calls tie the signals of
    the new worker to the progress bar and to the log; the coroutine
    [worker.run()] is what the executor is given. *)
Definition start_download (os : OS) (self : t) (fmt : string)
    : DownloadThread.Result unit * t :=
  let url := strip (url_edit self) in
  match out_path_of os self with
  | inl exc => (DownloadThread.Raised exc, self)
  | inr out_path =>
      let proxy := strip (proxy_edit self) in
      if String.eqb url "" then
        (DownloadThread.Returned tt, log_append self msg_url_required)
      else if negb (isdir os out_path) then
        (DownloadThread.Returned tt, log_append self (msg_no_directory out_path))
      else if negb (access_W_OK os out_path) then
        (DownloadThread.Returned tt, log_append self (msg_not_writable out_path))
      else if negb (String.eqb proxy "") && negb (is_valid_proxy proxy) then
        (DownloadThread.Returned tt, log_append self msg_bad_proxy)
      else
        let worker := {| Worker.url := url;
                         Worker.out_path := out_path;
                         Worker.proxy := proxy;
                         Worker.fmt := fmt |} in
        match DownloadThread.schedule_task (thread self) worker with
        | (DownloadThread.Returned _, th) =>
            (DownloadThread.Returned tt, set_thread self th)
        | (DownloadThread.Raised exc, th) =>
            (DownloadThread.Raised exc, set_thread self th)
        | (DownloadThread.Blocked, th) =>
            (DownloadThread.Blocked, set_thread self th)
        end
  end.

(** The coroutines handed to the executor of the window so far. *)
Definition jobs (self : t) : list Worker.t :=
  match DownloadThread.loop (thread self) with
  | Some l => DownloadThread.scheduled l
  | None => []
  end.

End MainWindow.

(** A file system with two directories, one of them writable. *)
Definition os_sample : MainWindow.OS :=
  {| MainWindow.getcwd := inr "/home/user";
     MainWindow.isdir := fun p => String.eqb p "/tmp" || String.eqb p "/home/user";
     MainWindow.access_W_OK := fun p => String.eqb p "/tmp" |}.

(** A window once its thread serves the loop, with the fields as a
    user may leave them: blanks around the address, a newline after
    the proxy. *)
Definition window_sample : MainWindow.t :=
  {| MainWindow.url_edit := "  https://youtu.be/dQw4w9WgXcQ ";
     MainWindow.folder_edit := "/tmp";
     MainWindow.proxy_edit := String "009" ("http://127.0.0.1:8881" ++ String "010" "");
     MainWindow.log := [];
     MainWindow.thread := running_executor |}.

(* ====================================================================== *)
(** * Properties of [is_valid_proxy] *)

Example is_valid_proxy_https : is_valid_proxy "https://proxy.example.org" = true.
Proof. reflexivity. Qed.

Example is_valid_proxy_six_digit_port : is_valid_proxy "http://host:123456" = false.
Proof. reflexivity. Qed.

Example is_valid_proxy_empty_port : is_valid_proxy "http://host:" = false.
Proof. reflexivity. Qed.

Example is_valid_proxy_no_host : is_valid_proxy "http://" = false.
Proof. reflexivity. Qed.

(** The pattern counts the digits of the port and does not look at
    its value. *)
Example is_valid_proxy_port_65536 : is_valid_proxy "http://host:65536" = true.
Proof. reflexivity. Qed.

(** C2, as amended: the validator accepts the empty string and
    "http://127.0.0.1:8881", rejects "ftp://x", and accepts
    "http://host:99999", whose port has five digits. *)
Theorem is_valid_proxy_vectors :
  is_valid_proxy "" = true
  /\ is_valid_proxy "http://127.0.0.1:8881" = true
  /\ is_valid_proxy "ftp://x" = false
  /\ is_valid_proxy "http://host:99999" = true.
Proof. repeat split; reflexivity. Qed.

(** C2, as stated, fails on its fourth vector: "http://host:99999" is
    not rejected. *)
Lemma is_valid_proxy_vectors_as_stated_fail :
  ~ (is_valid_proxy "" = true
     /\ is_valid_proxy "http://127.0.0.1:8881" = true
     /\ is_valid_proxy "ftp://x" = false
     /\ is_valid_proxy "http://host:99999" = false).
Proof.
  intros (_ & _ & _ & H).
  assert (Hacc : is_valid_proxy "http://host:99999" = true) by reflexivity.
  rewrite Hacc in H. discriminate H.
Qed.

(* ====================================================================== *)
(** * Properties of [DownloadThread] *)

(** After a [stop] that found the thread serving its loop, the thread
    is no longer running. *)
Lemma stop_ends_thread (self self' : DownloadThread.t) (l : DownloadThread.EventLoop) :
  DownloadThread.loop self = Some l ->
  DownloadThread.stop self = (DownloadThread.Returned tt, self') ->
  DownloadThread.isRunning self' = false.
Proof.
  unfold DownloadThread.stop. intros Hl. rewrite Hl.
  destruct (DownloadThread.isRunning self) eqn:Hrun.
  - destruct (DownloadThread.serving l); intros H; inversion H; reflexivity.
  - intros H; inversion H; subst. exact Hrun.
Qed.

Example running_executor_isRunning :
  DownloadThread.isRunning running_executor = true.
Proof. reflexivity. Qed.

Example schedule_on_running_executor :
  fst (DownloadThread.schedule_task running_executor audio_job)
  = DownloadThread.Returned 0%nat.
Proof. reflexivity. Qed.

(** C7: while the thread is not running, [schedule_task] raises the
    "not running" error for any job, and leaves the executor, and so
    the coroutines scheduled on its loop, as they were. *)
Theorem schedule_task_not_running (self : DownloadThread.t) (coro : Worker.t) :
  DownloadThread.isRunning self = false ->
  DownloadThread.schedule_task self coro
  = (DownloadThread.Raised DownloadThread.not_running, self).
Proof.
  intros Hrun. unfold DownloadThread.schedule_task. rewrite Hrun. reflexivity.
Qed.

(** C7 before [start], and after a completed [stop]. *)
Lemma schedule_task_not_running_witness :
  DownloadThread.isRunning DownloadThread.__init__ = false
  /\ DownloadThread.schedule_task DownloadThread.__init__ audio_job
     = (DownloadThread.Raised DownloadThread.not_running, DownloadThread.__init__)
  /\ DownloadThread.isRunning stopped_executor = false
  /\ DownloadThread.schedule_task stopped_executor video_job
     = (DownloadThread.Raised DownloadThread.not_running, stopped_executor).
Proof.
  split; [reflexivity | split; [| split; [reflexivity |]]].
  - apply (schedule_task_not_running DownloadThread.__init__ audio_job). reflexivity.
  - apply (schedule_task_not_running stopped_executor video_job). reflexivity.
Defined.

(** C8: once a first [stop] has returned, a second [stop] returns
    without raising and leaves the executor as the first one left it. *)
Theorem stop_idempotent (self self' : DownloadThread.t) :
  DownloadThread.stop self = (DownloadThread.Returned tt, self') ->
  DownloadThread.stop self' = (DownloadThread.Returned tt, self').
Proof.
  unfold DownloadThread.stop.
  destruct (DownloadThread.loop self) as [l|] eqn:Hl.
  - destruct (DownloadThread.isRunning self) eqn:Hrun.
    + destruct (DownloadThread.serving l); intros H; inversion H; reflexivity.
    + intros H; inversion H; subst. rewrite Hl, Hrun. reflexivity.
  - intros H; inversion H; subst. rewrite Hl. reflexivity.
Qed.

Lemma stop_idempotent_witness :
  DownloadThread.stop running_executor = (DownloadThread.Returned tt, stopped_executor)
  /\ DownloadThread.stop stopped_executor = (DownloadThread.Returned tt, stopped_executor).
Proof.
  split; [reflexivity |].
  apply (stop_idempotent running_executor stopped_executor). reflexivity.
Defined.

(** C9, as amended: [start] on an executor whose thread is running
    raises nothing; it returns and leaves the executor unchanged, so no
    second thread is spawned. *)
Theorem start_when_running (self : DownloadThread.t) :
  DownloadThread.isRunning self = true ->
  DownloadThread.start self = (DownloadThread.Returned tt, self).
Proof.
  intros Hrun. unfold DownloadThread.start. rewrite Hrun. reflexivity.
Qed.

Lemma start_when_running_witness :
  DownloadThread.isRunning running_executor = true
  /\ DownloadThread.start running_executor = (DownloadThread.Returned tt, running_executor)
  /\ DownloadThread.spawned (snd (DownloadThread.start running_executor)) = 1%nat.
Proof.
  split; [reflexivity | split].
  - apply (start_when_running running_executor). reflexivity.
  - reflexivity.
Defined.

(** C9, as stated, fails: a second [start] on a running executor does
    not raise. *)
Lemma start_twice_does_not_raise :
  DownloadThread.isRunning running_executor = true
  /\ ~ (exists e : PyExc,
          fst (DownloadThread.start running_executor) = DownloadThread.Raised e).
Proof.
  split; [reflexivity |].
  intros [e He]. cbn in He. discriminate He.
Qed.

(** C10: [stop] on an executor whose loop is unset or whose thread is
    not running, in particular before any [start], returns without
    raising and changes nothing. *)
Theorem stop_before_start (self : DownloadThread.t) :
  DownloadThread.loop self = None \/ DownloadThread.isRunning self = false ->
  DownloadThread.stop self = (DownloadThread.Returned tt, self).
Proof.
  intros [Hl | Hrun]; unfold DownloadThread.stop.
  - rewrite Hl. reflexivity.
  - rewrite Hrun. destruct (DownloadThread.loop self); reflexivity.
Qed.

Lemma stop_before_start_witness :
  DownloadThread.loop DownloadThread.__init__ = None
  /\ DownloadThread.isRunning DownloadThread.__init__ = false
  /\ DownloadThread.stop DownloadThread.__init__
     = (DownloadThread.Returned tt, DownloadThread.__init__).
Proof.
  split; [reflexivity | split; [reflexivity |]].
  apply (stop_before_start DownloadThread.__init__). left. reflexivity.
Defined.

(* ====================================================================== *)
(** * Stream selection *)

Section Selection.
Import pytubefix.
Variable key : Stream -> Z.

Lemma insert_by_In (x y : Stream) (l : list Stream) :
  In y (insert_by key x l) <-> y = x \/ In y l.
Proof.
  induction l as [|z l IH]; simpl.
  - intuition congruence.
  - destruct (key x <=? key z); simpl; [intuition congruence |].
    rewrite IH. intuition congruence.
Qed.

Lemma sorted_In (y : Stream) (l : list Stream) :
  In y (sorted key l) <-> In y l.
Proof.
  induction l as [|x l IH]; simpl; [tauto |].
  rewrite insert_by_In, IH. intuition congruence.
Qed.

Lemma insert_by_ascending (x : Stream) (l : list Stream) :
  ascending key l -> ascending key (insert_by key x l).
Proof.
  induction l as [|z l IH]; simpl.
  - intros _. split; [intros y [] | exact I].
  - intros [Hz Hl]. destruct (key x <=? key z) eqn:Hc.
    + apply Z.leb_le in Hc. simpl. split; [| split; assumption].
      intros y [<- | Hy]; [exact Hc |].
      specialize (Hz y Hy). lia.
    + apply Z.leb_gt in Hc. simpl. split; [| apply IH; exact Hl].
      intros y Hy. apply insert_by_In in Hy. destruct Hy as [-> | Hy].
      * lia.
      * apply Hz; exact Hy.
Qed.

Lemma sorted_ascending (l : list Stream) : ascending key (sorted key l).
Proof.
  induction l as [|x l IH]; simpl; [exact I |].
  apply insert_by_ascending; exact IH.
Qed.

Lemma first_desc_snoc (l : list Stream) (x : Stream) :
  first (desc (x :: l)) = match first (desc l) with
                          | Some s => Some s
                          | None => Some x
                          end.
Proof.
  unfold desc. simpl. destruct (rev l); reflexivity.
Qed.

Lemma first_desc_None (l : list Stream) : first (desc l) = None -> l = [].
Proof.
  destruct l as [|x l]; [reflexivity |].
  rewrite first_desc_snoc. destruct (first (desc l)); discriminate.
Qed.

(** The first stream of an ascending list read backwards is one of
    the greatest key. *)
Lemma first_desc_ascending (l : list Stream) (s : Stream) :
  ascending key l ->
  first (desc l) = Some s ->
  In s l /\ forall y, In y l -> key y <= key s.
Proof.
  induction l as [|x l IH]; [discriminate |].
  intros [Hx Hl]. rewrite first_desc_snoc.
  destruct (first (desc l)) as [s'|] eqn:Hf.
  - intros H; inversion H; subst s'.
    destruct (IH Hl eq_refl) as [Hin Hmax].
    split; [right; exact Hin |].
    intros y [<- | Hy]; [apply Hx; exact Hin | apply Hmax; exact Hy].
  - intros H; inversion H; subst x.
    apply first_desc_None in Hf. subst l.
    split; [left; reflexivity |].
    intros y [<- | []]. lia.
Qed.

End Selection.

(** What [first(desc(order_by(attr, filter(p, q))))] returns: a stream
    of [q] that satisfies [p], has the attribute, and whose attribute
    is the greatest among such streams; and nothing only when there is
    no such stream. *)
Lemma best_of_query (p : pytubefix.Stream -> bool)
    (attr : pytubefix.Stream -> option Z) (q : pytubefix.StreamQuery) :
  match pytubefix.first
          (pytubefix.desc (pytubefix.order_by attr (pytubefix.filter p q))) with
  | Some s =>
      In s q /\ p s = true
      /\ exists r, attr s = Some r
         /\ forall s' r', In s' q -> p s' = true -> attr s' = Some r' -> r' <= r
  | None => forall s', In s' q -> p s' = true -> attr s' = None
  end.
Proof.
  unfold pytubefix.order_by, pytubefix.filter.
  set (cands := List.filter (pytubefix.has_attribute attr) (List.filter p q)).
  assert (Hc : forall s, In s cands <->
                 In s q /\ p s = true /\ pytubefix.has_attribute attr s = true).
  { intros s. unfold cands. rewrite !filter_In. tauto. }
  destruct (pytubefix.first (pytubefix.desc (pytubefix.sorted (pytubefix.key_of attr) cands)))
    as [s|] eqn:Hf.
  - destruct (first_desc_ascending (pytubefix.key_of attr) _ s
                (sorted_ascending _ cands) Hf) as [Hin Hmax].
    apply sorted_In in Hin. apply Hc in Hin. destruct Hin as (Hq & Hp & Ha).
    split; [exact Hq | split; [exact Hp |]].
    unfold pytubefix.has_attribute in Ha.
    destruct (attr s) as [r|] eqn:Hr; [| discriminate].
    exists r. split; [reflexivity |].
    intros s' r' Hq' Hp' Hr'.
    assert (Hin' : In s' (pytubefix.sorted (pytubefix.key_of attr) cands)).
    { apply sorted_In, Hc. unfold pytubefix.has_attribute. rewrite Hr'. auto. }
    specialize (Hmax s' Hin'). unfold pytubefix.key_of in Hmax.
    rewrite Hr, Hr' in Hmax. exact Hmax.
  - apply first_desc_None in Hf.
    intros s' Hq' Hp'. destruct (attr s') as [r'|] eqn:Hr'; [| reflexivity].
    assert (Hin' : In s' (pytubefix.sorted (pytubefix.key_of attr) cands)).
    { apply sorted_In, Hc. unfold pytubefix.has_attribute. rewrite Hr'. auto. }
    rewrite Hf in Hin'. destruct Hin'.
Qed.

(** C4: the selected stream is one of the resolved streams, of the
    requested kind (a progressive stream for "video", an audio-only
    stream otherwise), and of the greatest rank (resolution, or audio
    bit rate) among the ranked streams of that kind; no stream is
    selected only when no stream of that kind has a rank.  For an audio
    job with audio-only streams of 128 and 256 kbps and one video
    stream, the 256 kbps stream is selected, in whatever order the
    streams were resolved. *)
Theorem select_stream_best (self : Worker.t) (q : pytubefix.StreamQuery) :
  match Worker.select_stream self q with
  | Some s =>
      In s q /\ Worker.kind_filter self s = true
      /\ exists r, Worker.quality_rank self s = Some r
         /\ forall s' r', In s' q -> Worker.kind_filter self s' = true ->
              Worker.quality_rank self s' = Some r' -> r' <= r
  | None =>
      forall s', In s' q -> Worker.kind_filter self s' = true ->
        Worker.quality_rank self s' = None
  end
  /\ Worker.select_stream audio_job [audio_128; audio_256; video_720] = Some audio_256
  /\ Worker.select_stream audio_job [video_720; audio_256; audio_128] = Some audio_256.
Proof.
  split; [| split; reflexivity].
  unfold Worker.select_stream, Worker.kind_filter, Worker.quality_rank.
  destruct (String.eqb (Worker.fmt self) "video"); apply best_of_query.
Qed.

Example select_stream_video :
  Worker.select_stream video_job [audio_128; audio_256; video_720] = Some video_720.
Proof. reflexivity. Qed.

Example select_stream_no_audio :
  Worker.select_stream audio_job [video_720] = None.
Proof. reflexivity. Qed.

(* ====================================================================== *)
(** * The effect monad *)

Lemma trace_bind {A B : Type} (m : M A) (k : A -> M B) :
  trace (bind m k)
  = match outcome m with
    | inl _ => trace m
    | inr a => trace m ++ trace (k a)
    end.
Proof.
  destruct m as [t [e|a]]; simpl; [reflexivity |].
  destruct (k a); reflexivity.
Qed.

Lemma outcome_bind {A B : Type} (m : M A) (k : A -> M B) :
  outcome (bind m k)
  = match outcome m with
    | inl e => inl e
    | inr a => outcome (k a)
    end.
Proof.
  destruct m as [t [e|a]]; simpl; [reflexivity |].
  destruct (k a); reflexivity.
Qed.

Lemma trace_try_except {A : Type} (body : M A) (handler : PyExc -> M A) :
  trace (try_except body handler)
  = match outcome body with
    | inl e => trace body ++ trace (handler e)
    | inr _ => trace body
    end.
Proof.
  destruct body as [t [e|a]]; simpl; [| reflexivity].
  destruct (handler e); reflexivity.
Qed.

Lemma outcome_try_except {A : Type} (body : M A) (handler : PyExc -> M A) :
  outcome (try_except body handler)
  = match outcome body with
    | inl e => outcome (handler e)
    | inr a => inr a
    end.
Proof.
  destruct body as [t [e|a]]; simpl; [| reflexivity].
  destruct (handler e); reflexivity.
Qed.

Lemma signals_app (t1 t2 : list Event) :
  signals (t1 ++ t2) = signals t1 ++ signals t2.
Proof.
  induction t1 as [|ev t1 IH]; simpl; [reflexivity |].
  destruct ev; simpl; rewrite IH; reflexivity.
Qed.

(* ====================================================================== *)
(** * The progress callback and the transfer *)

(** One call of the callback emits at most one signal, a [progress]. *)
Lemma on_progress_trace (total bytes_remaining : Z) :
  trace (Worker._on_progress total bytes_remaining) = []
  \/ exists p, trace (Worker._on_progress total bytes_remaining) = [Emit (progress p)].
Proof.
  unfold Worker._on_progress. rewrite trace_bind. unfold lift. simpl.
  destruct (percent_of (total - bytes_remaining) total) as [e|p]; [left; reflexivity |].
  unfold emit_progress.
  destruct ((INT_MIN <=? p) && (p <=? INT_MAX)); [right; exists p | left]; reflexivity.
Qed.

Lemma feed_signals (total : Z) (remaining : list Z) :
  exists ps : list Z,
    trace (pytubefix.feed (Worker._on_progress total) remaining)
    = map (fun p => Emit (progress p)) ps.
Proof.
  induction remaining as [|r rest IH]; simpl.
  - exists []. reflexivity.
  - rewrite trace_bind.
    destruct IH as [ps IH].
    destruct (on_progress_trace total r) as [Hr | [p Hr]]; rewrite Hr.
    + destruct (outcome (Worker._on_progress total r)).
      * exists []. reflexivity.
      * exists ps. exact IH.
    + destruct (outcome (Worker._on_progress total r)).
      * exists [p]. reflexivity.
      * exists (p :: ps). rewrite IH. reflexivity.
Qed.

Lemma signals_emits (ps : list Z) :
  signals (map (fun p => Emit (progress p)) ps) = map progress ps.
Proof.
  induction ps as [|p ps IH]; simpl; [reflexivity | rewrite IH; reflexivity].
Qed.

(** The signals of a transfer are [progress] signals only. *)
Lemma download_signals (s : pytubefix.Stream) (total : Z) (out fp : string) :
  exists ps : list Z,
    signals (trace (pytubefix.download s (Worker._on_progress total) out fp))
    = map progress ps.
Proof.
  unfold pytubefix.download. rewrite trace_bind. simpl.
  rewrite trace_bind.
  destruct (feed_signals total (pytubefix.chunks s)) as [ps Hps].
  exists ps. rewrite Hps.
  destruct (outcome (pytubefix.feed (Worker._on_progress total) (pytubefix.chunks s)));
    simpl; [| rewrite app_nil_r]; apply signals_emits.
Qed.

(* ====================================================================== *)
(** * [Worker.run] *)








(** C1: [run] never raises, and the signals it emits are some
    [progress] signals followed by one [finished] signal: one terminal
    notification, the last of the job, whatever the collaborator does
    (the constructor raises, the stream list cannot be fetched, no
    stream suits, the file size or the transfer fails, or the transfer
    succeeds). *)
Theorem run_emits_one_finished_last (YouTube : pytubefix.Constructor) (self : Worker.t) :
  outcome (Worker.run YouTube self) = inr tt
  /\ exists (ps : list Z) (msg : string),
       signals (trace (Worker.run YouTube self)) = map progress ps ++ [finished msg].
Proof.
  unfold Worker.run, call.
  destruct (YouTube (Worker.url self) (Worker.proxies_arg self)) as [exc|yt].
  { split; [reflexivity |]. exists [], (Worker.msg_connect_error exc). reflexivity. }
  cbn -[pytubefix.download Worker.select_stream].
  destruct (pytubefix.streams yt) as [exc|q].
  { split; [reflexivity |]. exists [], (Worker.msg_download_error exc). reflexivity. }
  cbn -[pytubefix.download Worker.select_stream].
  destruct (Worker.select_stream self q) as [stream|].
  2:{ split; [reflexivity |].
      exists [], (Worker.msg_download_error Worker.no_stream_found). reflexivity. }
  destruct (pytubefix.filesize stream) as [exc|total].
  { split; [reflexivity |]. exists [], (Worker.msg_download_error exc). reflexivity. }
  cbn -[pytubefix.download].
  destruct (download_signals stream total (Worker.out_path self) "") as [ps Hps].
  destruct (pytubefix.download stream (Worker._on_progress total)
              (Worker.out_path self) "") as [t [exc|path]]; cbn in Hps |- *.
  - split; [reflexivity |].
    exists ps, (Worker.msg_download_error exc).
    rewrite signals_app, Hps. reflexivity.
  - split; [reflexivity |].
    exists ps, (Worker.msg_saved self).
    rewrite signals_app, Hps. reflexivity.
Qed.

(* ====================================================================== *)
(** * The emitted percentage *)

Example run_audio_job :
  Worker.run (YouTube_with [audio_128; audio_256; video_720]) audio_job
  = ([CallYouTube "https://www.youtube.com/watch?v=dQw4w9WgXcQ" None;
      GetStreams; GetFilesize; CallDownload "/tmp" "";
      Emit (progress 25); Emit (progress 50); Emit (progress 75); Emit (progress 100);
      Emit (finished "✅ Сохранено: /tmp")],
     inr tt).
Proof. vm_compute. reflexivity. Qed.

Example run_broken_transfer :
  signals (trace (Worker.run (YouTube_with [audio_broken]) audio_job))
  = [progress 25; progress 50;
     finished "❌ Ошибка при скачивании: [Errno 104] Connection reset by peer"].
Proof. vm_compute. reflexivity. Qed.

(** A stream of size zero: the callback raises, nothing is emitted. *)
Example on_progress_total_zero :
  Worker._on_progress 0 0 = ([], inl (ZeroDivisionError "division by zero")).
Proof. vm_compute. reflexivity. Qed.

Example percent_of_half : percent_of 50 100 = inr (percent_spec 50 100).
Proof. vm_compute. reflexivity. Qed.

(** C3: with 29 bytes out of 100 downloaded (71 remaining) the callback
    emits 28, where the percentage of the specification is 29: the
    quotient 29/100 rounds to a binary64 below 0.29, its product by 100
    to one below 29, and [int] truncates.  The same happens with
    29 000 000 bytes out of 100 000 000. *)
Theorem on_progress_29_of_100 :
  Worker._on_progress 100 71 = ([Emit (progress 28)], inr tt)
  /\ percent_spec (100 - 71) 100 = 29
  /\ Worker._on_progress 100000000 71000000 = ([Emit (progress 28)], inr tt)
  /\ percent_spec (100000000 - 71000000) 100000000 = 29.
Proof. repeat split; vm_compute; reflexivity. Qed.

(* ====================================================================== *)
(** * Rounding to binary64 *)

Lemma bool_iff_true (P : Prop) : (true = true <-> P) -> P.
Proof. intros [H _]. apply H. reflexivity. Qed.

Lemma bool_iff_false (P : Prop) : (false = true <-> P) -> ~ P.
Proof. intros [_ H] HP. specialize (H HP). discriminate. Qed.

Lemma true_iff_intro (P : Prop) : P -> (true = true <-> P).
Proof. tauto. Qed.

Lemma false_iff_intro (P : Prop) : ~ P -> (false = true <-> P).
Proof. intros HP. split; [discriminate | tauto]. Qed.

Ltac bools :=
  repeat match goal with
         | H : true = true <-> _ |- _ => apply bool_iff_true in H
         | H : false = true <-> _ |- _ => apply bool_iff_false in H
         end.

Ltac bool_goal :=
  first [apply true_iff_intro | apply false_iff_intro].

Lemma shr_1_located (N D : Z) (r : shr_record) :
  located N D r -> located N (2 * D) (shr_1 r).
Proof.
  destruct r as [m rb sb]. unfold located. cbn [shr_m shr_r shr_s].
  intros (Hm & HR & Hr & Hs).
  destruct rb, sb; bools;
  (destruct m as [|[p|p|]|p]; cbn [shr_1 shr_m shr_r shr_s orb];
   [ | rewrite (Pos2Z.inj_xI p) in * | rewrite (Pos2Z.inj_xO p) in * | | lia ];
   (split; [lia | split; [lia | split; bool_goal; try lia]])).
Qed.

Lemma iter_shr_1_located (p : positive) :
  forall (N D : Z) (r : shr_record),
    located N D r -> located N (2 ^ Zpos p * D) (iter_pos shr_1 p r).
Proof.
  induction p as [p IH|p IH|]; intros N D r H; cbn [iter_pos].
  - apply shr_1_located in H. apply IH in H. apply IH in H.
    replace (2 ^ Zpos p~1 * D) with (2 ^ Zpos p * (2 ^ Zpos p * (2 * D))); [exact H |].
    rewrite (Pos2Z.inj_xI p), Z.pow_add_r, Z.pow_twice_r by lia.
    change (2 ^ 1) with 2. ring.
  - apply IH in H. apply IH in H.
    replace (2 ^ Zpos p~0 * D) with (2 ^ Zpos p * (2 ^ Zpos p * D)); [exact H |].
    rewrite (Pos2Z.inj_xO p), Z.pow_twice_r. ring.
  - apply shr_1_located in H. exact H.
Qed.

Lemma located_div (N D : Z) (r : shr_record) :
  located N D r -> shr_m r = N / D.
Proof.
  intros (Hm & HR & _). apply (Z.div_unique N D (shr_m r) (N - shr_m r * D)); lia.
Qed.

Lemma round_located (N D : Z) (r : shr_record) :
  located N D r ->
  round_nearest_even (shr_m r) (loc_of_shr_record r) = rne N D.
Proof.
  intros H. pose proof (located_div N D r H) as Hdiv.
  destruct H as (Hm & HR & Hr & Hs).
  assert (Hmod : N mod D = N - shr_m r * D).
  { rewrite Z.mod_eq by lia. rewrite <- Hdiv. ring. }
  unfold rne. rewrite Hmod, <- Hdiv.
  destruct r as [m rb sb]. cbn [shr_m shr_r shr_s] in *.
  destruct rb, sb; bools; cbn [loc_of_shr_record round_nearest_even].
  - destruct (Z.ltb_spec (2 * (N - m * D)) D); [lia |].
    destruct (Z.ltb_spec D (2 * (N - m * D))); [reflexivity | lia].
  - destruct (Z.ltb_spec (2 * (N - m * D)) D); [lia |].
    destruct (Z.ltb_spec D (2 * (N - m * D))); [lia | reflexivity].
  - destruct (Z.ltb_spec (2 * (N - m * D)) D); [reflexivity | lia].
  - destruct (Z.ltb_spec (2 * (N - m * D)) D); [reflexivity | lia].
Qed.

Lemma new_location_located (N D : Z) :
  0 <= N -> 0 < D ->
  located N D (shr_record_of_loc (N / D) (new_location D (N mod D))).
Proof.
  intros HN HD.
  pose proof (Z.mod_pos_bound N D HD) as HR.
  pose proof (Z.div_pos N D HN HD) as Hq.
  assert (HRe : N - N / D * D = N mod D) by (rewrite Z.mod_eq by lia; ring).
  assert (Hshape : forall l, shr_m (shr_record_of_loc (N / D) l) = N / D).
  { intros [|[| |]]; reflexivity. }
  unfold located. rewrite Hshape, HRe.
  split; [exact Hq | split; [exact HR |]].
  unfold new_location, new_location_even, new_location_odd.
  destruct (Z.even D) eqn:Hev.
  - destruct (Z.eqb_spec (N mod D) 0) as [H0|H0].
    + cbn [shr_record_of_loc shr_r shr_s]. split; bool_goal; lia.
    + destruct (Z.compare_spec (2 * (N mod D)) D); cbn [shr_record_of_loc shr_r shr_s]; split; bool_goal; lia.
  - assert (Hodd : forall k, 2 * k <> D).
    { intros k Hk. rewrite <- Hk in Hev. rewrite Z.even_mul in Hev. discriminate. }
    specialize (Hodd (N mod D)).
    destruct (Z.eqb_spec (N mod D) 0) as [H0|H0].
    + cbn [shr_record_of_loc shr_r shr_s]. split; bool_goal; lia.
    + destruct (Z.compare_spec (2 * (N mod D) + 1) D); cbn [shr_record_of_loc shr_r shr_s]; split; bool_goal; lia.
Qed.

Lemma digits2_pos_bounds (p : positive) :
  2 ^ (Zpos (digits2_pos p) - 1) <= Zpos p < 2 ^ Zpos (digits2_pos p).
Proof.
  induction p as [p IH|p IH|]; cbn [digits2_pos].
  - rewrite Pos2Z.inj_succ, (Pos2Z.inj_xI p).
    replace (Z.succ (Zpos (digits2_pos p)) - 1) with (Z.succ (Zpos (digits2_pos p) - 1)) by lia.
    rewrite !Z.pow_succ_r by lia. lia.
  - rewrite Pos2Z.inj_succ, (Pos2Z.inj_xO p).
    replace (Z.succ (Zpos (digits2_pos p)) - 1) with (Z.succ (Zpos (digits2_pos p) - 1)) by lia.
    rewrite !Z.pow_succ_r by lia. lia.
  - cbn. lia.
Qed.

Lemma Zdigits2_nonneg (m : Z) : 0 <= Zdigits2 m.
Proof. destruct m; cbn; lia. Qed.

Lemma Zdigits2_bounds (m : Z) :
  0 < m -> 2 ^ (Zdigits2 m - 1) <= m < 2 ^ Zdigits2 m.
Proof.
  destruct m as [|p|p]; try lia. intros _. apply digits2_pos_bounds.
Qed.

(** [m < 2^k] bounds the number of digits of [m] *)
Lemma Zdigits2_le (m k : Z) : 0 <= m -> 0 <= k -> m < 2 ^ k -> Zdigits2 m <= k.
Proof.
  intros Hm Hk Hlt. destruct (Z.eq_dec m 0) as [->|Hne]; [cbn; lia |].
  pose proof (Zdigits2_bounds m ltac:(lia)) as [Hlo _].
  destruct (Z_le_gt_dec (Zdigits2 m) k) as [|Hgt]; [assumption |].
  exfalso. assert (2 ^ k <= 2 ^ (Zdigits2 m - 1)) by (apply Z.pow_le_mono_r; lia). lia.
Qed.

Lemma Zdigits2_ge (m k : Z) : 0 <= k -> 2 ^ k <= m -> k + 1 <= Zdigits2 m.
Proof.
  intros Hk Hle.
  assert (Hpos : 0 < 2 ^ k) by (apply Z.pow_pos_nonneg; lia).
  pose proof (Zdigits2_bounds m ltac:(lia)) as [_ Hhi].
  pose proof (Zdigits2_nonneg m).
  destruct (Z_le_gt_dec (k + 1) (Zdigits2 m)) as [|Hgt]; [assumption |].
  exfalso. assert (2 ^ Zdigits2 m <= 2 ^ k) by (apply Z.pow_le_mono_r; lia). lia.
Qed.

Lemma shr_located (N D : Z) (r : shr_record) (e n : Z) :
  located N D r ->
  located N (2 ^ Z.max 0 n * D) (fst (shr r e n))
  /\ snd (shr r e n) = e + Z.max 0 n.
Proof.
  intros H. destruct n as [|p|p]; cbn [shr fst snd].
  - change (Z.max 0 0) with 0. rewrite Z.pow_0_r, Z.mul_1_l, Z.add_0_r. auto.
  - rewrite Z.max_r by lia. split; [apply iter_shr_1_located; exact H | reflexivity].
  - rewrite Z.max_l by lia. rewrite Z.pow_0_r, Z.mul_1_l, Z.add_0_r. auto.
Qed.

Lemma rne_bounds (N D : Z) : N / D <= rne N D <= N / D + 1.
Proof.
  unfold rne.
  destruct (2 * (N mod D) <? D); [lia |].
  destruct (D <? 2 * (N mod D)); [lia |].
  destruct (Z.even (N / D)); lia.
Qed.

Lemma fexp64_eq (k : Z) : fexp64 k = Z.max (k - 53) (-1074).
Proof. reflexivity. Qed.

Lemma div_div_pow (N D n : Z) : 0 <= N -> 0 < D -> 0 <= n ->
  N / (2 ^ n * D) = N / D / 2 ^ n.
Proof.
  intros HN HD Hn. rewrite (Z.mul_comm (2 ^ n) D).
  rewrite Z.div_div; [reflexivity | lia | apply Z.pow_pos_nonneg; lia].
Qed.

(** the mantissa kept by the first shift has at most 53 digits *)
Lemma shifted_mantissa_lt (N D e : Z) :
  0 <= N -> 0 < D ->
  let n := Z.max 0 (fexp64 (Zdigits2 (N / D) + e) - e) in
  N / (2 ^ n * D) < 2 ^ 53.
Proof.
  intros HN HD n.
  assert (Hn : 0 <= n) by (unfold n; lia).
  rewrite div_div_pow by assumption.
  pose proof (Z.div_pos N D HN HD) as Hq.
  set (m0 := N / D) in *.
  assert (Hpn : 0 < 2 ^ n) by (apply Z.pow_pos_nonneg; lia).
  destruct (Z.eq_dec m0 0) as [H0|H0].
  { rewrite H0, Z.div_0_l by lia. apply Z.pow_pos_nonneg; lia. }
  pose proof (Zdigits2_bounds m0 ltac:(lia)) as [_ Hhi].
  pose proof (Zdigits2_nonneg m0) as Hd.
  assert (Hdn : Zdigits2 m0 <= 53 + n).
  { unfold n. rewrite fexp64_eq. lia. }
  apply Z.div_lt_upper_bound; [exact Hpn |].
  rewrite <- Z.pow_add_r by lia.
  assert (2 ^ Zdigits2 m0 <= 2 ^ (n + 53)) by (apply Z.pow_le_mono_r; lia).
  lia.
Qed.

Lemma shr_nonpos (r : shr_record) (e n : Z) : n <= 0 -> shr r e n = (r, e).
Proof. destruct n; [reflexivity | lia | reflexivity]. Qed.

Lemma located_exact (m : Z) : 0 <= m -> located m 1 (shr_record_of_loc m loc_Exact).
Proof.
  intros Hm. unfold located. cbn [shr_record_of_loc shr_m shr_r shr_s].
  split; [lia | split; [lia | split; bool_goal; lia]].
Qed.

Theorem binary_round_aux_spec (N D e : Z) :
  0 <= N -> 0 < D ->
  binary_round_aux prec emax false (N / D) e (new_location D (N mod D))
  = float_of_pair (round_pair N D e).
Proof.
  intros HN HD.
  pose proof (shifted_mantissa_lt N D e HN HD) as Hlt. cbv zeta in Hlt.
  unfold round_pair, binary_round_aux, shr_fexp.
  change (fexp prec emax) with fexp64.
  set (n := Z.max 0 (fexp64 (Zdigits2 (N / D) + e) - e)) in *.
  assert (Hn : 0 <= n) by (unfold n; lia).
  pose proof (new_location_located N D HN HD) as Hloc0.
  destruct (shr_located N D _ e (fexp64 (Zdigits2 (N / D) + e) - e) Hloc0) as [Hloc1 He1].
  fold n in Hloc1, He1.
  destruct (shr (shr_record_of_loc (N / D) (new_location D (N mod D))) e
              (fexp64 (Zdigits2 (N / D) + e) - e)) as [mrs' e'] eqn:Hshr.
  cbn [fst snd] in Hloc1, He1. subst e'.
  rewrite (round_located _ _ _ Hloc1).
  pose proof (rne_bounds N (2 ^ n * D)) as Hb.
  assert (HDn : 0 < 2 ^ n * D).
  { apply Z.mul_pos_pos; [apply Z.pow_pos_nonneg; lia | exact HD]. }
  pose proof (Z.div_pos N (2 ^ n * D) HN HDn) as Hq.
  set (m1 := rne N (2 ^ n * D)) in *.
  assert (He1 : -1074 <= e + n).
  { unfold n. rewrite fexp64_eq. lia. }
  cbn [float_of_pair].
  destruct (Z.eqb_spec m1 (2 ^ 53)) as [Heq|Hne].
  - rewrite Heq.
    replace (fexp64 (Zdigits2 (2 ^ 53) + (e + n)) - (e + n)) with 1
      by (change (Zdigits2 (2 ^ 53)) with 54; rewrite fexp64_eq; lia).
    reflexivity.
  - assert (Hm1 : 0 <= m1 < 2 ^ 53) by lia.
    rewrite shr_nonpos.
    + cbn [shr_record_of_loc shr_m]. unfold finite_or_inf. reflexivity.
    + assert (Zdigits2 m1 <= 53) by (apply Zdigits2_le; lia).
      rewrite fexp64_eq. lia.
Qed.

Lemma frac_floor_mono (A B A' B' : Z) :
  0 < B -> 0 < B' -> A * B' <= A' * B -> A / B <= A' / B'.
Proof.
  intros HB HB' H.
  apply Z.div_le_lower_bound; [exact HB' |].
  pose proof (Z.mul_div_le A B HB) as H1.
  (* B' * (A/B) <= A' *)
  assert (H2 : B * (B' * (A / B)) <= B * A') by nia.
  apply Z.mul_le_mono_pos_l in H2; assumption.
Qed.

Lemma rne_le_int (A B c : Z) : 0 < B -> A <= c * B -> rne A B <= c.
Proof.
  intros HB H. unfold rne.
  pose proof (Z.div_mod A B ltac:(lia)) as Hdm.
  pose proof (Z.mod_pos_bound A B HB) as HR.
  assert (Hm : A / B <= c) by (apply Z.div_le_upper_bound; [exact HB | lia]).
  destruct (Z.ltb_spec (2 * (A mod B)) B); [lia |].
  assert (A / B < c) by nia.
  destruct (B <? 2 * (A mod B)); [lia |].
  destruct (Z.even (A / B)); lia.
Qed.

Lemma rne_ge_int (A B c : Z) : 0 < B -> c * B <= A -> c <= rne A B.
Proof.
  intros HB H.
  pose proof (rne_bounds A B) as [Hlo _].
  assert (c <= A / B) by (apply Z.div_le_lower_bound; [exact HB | lia]).
  lia.
Qed.

Lemma rne_mono (A B A' B' : Z) :
  0 < B -> 0 < B' -> A * B' <= A' * B -> rne A B <= rne A' B'.
Proof.
  intros HB HB' H.
  pose proof (frac_floor_mono A B A' B' HB HB' H) as Hfl.
  pose proof (rne_bounds A B) as [_ Hhi].
  pose proof (rne_bounds A' B') as [Hlo' _].
  destruct (Z.eq_dec (A / B) (A' / B')) as [Heq|Hne]; [| lia].
  clear Hhi Hlo' Hfl.
  pose proof (Z.div_mod A B ltac:(lia)) as Hdm.
  pose proof (Z.div_mod A' B' ltac:(lia)) as Hdm'.
  pose proof (Z.mod_pos_bound A B HB) as HR.
  pose proof (Z.mod_pos_bound A' B' HB') as HR'.
  unfold rne. rewrite <- Heq in *.
  set (m := A / B) in *. set (R := A mod B) in *. set (R' := A' mod B') in *.
  assert (HRR : R * B' <= R' * B) by nia.
  destruct (Z.ltb_spec (2 * R) B) as [H1|H1].
  - destruct (2 * R' <? B'); [lia |].
    destruct (B' <? 2 * R'); [lia |]. destruct (Z.even m); lia.
  - destruct (Z.ltb_spec (2 * R') B') as [H1'|H1']; [exfalso; nia |].
    destruct (Z.ltb_spec B (2 * R)) as [H2|H2].
    + destruct (Z.ltb_spec B' (2 * R')) as [H2'|H2']; [lia | exfalso; nia].
    + destruct (B' <? 2 * R'); [destruct (Z.even m); lia | lia].
Qed.

Lemma pow2_pos (k : Z) : 0 <= k -> 0 < 2 ^ k.
Proof. intros. apply Z.pow_pos_nonneg; lia. Qed.

Lemma pow2_le (a b : Z) : 0 <= a <= b -> 2 ^ a <= 2 ^ b.
Proof. intros. apply Z.pow_le_mono_r; lia. Qed.

Lemma num_lt_pow_digits (N D : Z) :
  0 <= N -> 0 < D -> N < 2 ^ Zdigits2 (N / D) * D.
Proof.
  intros HN HD.
  pose proof (Z.div_pos N D HN HD) as Hq.
  pose proof (Z.div_mod N D ltac:(lia)) as Hdm.
  pose proof (Z.mod_pos_bound N D HD) as HR.
  destruct (Z.eq_dec (N / D) 0) as [H0|H0].
  - rewrite H0 in Hdm |- *. change (Zdigits2 0) with 0. rewrite Z.pow_0_r. lia.
  - pose proof (Zdigits2_bounds (N / D) ltac:(lia)) as [_ Hhi]. nia.
Qed.

Lemma num_ge_pow_digits (N D : Z) :
  0 <= N -> 0 < D -> 0 < N / D -> 2 ^ (Zdigits2 (N / D) - 1) * D <= N.
Proof.
  intros HN HD Hq.
  pose proof (Z.div_mod N D ltac:(lia)) as Hdm.
  pose proof (Z.mod_pos_bound N D HD) as HR.
  pose proof (Zdigits2_bounds (N / D) Hq) as [Hlo _]. nia.
Qed.

Section RoundOrder.
Variable K : Z.
Variables N D e : Z.
Hypothesis HN : 0 <= N.
Hypothesis HD : 0 < D.
Hypothesis HK : 0 <= e + K.
(** the operand is given with at least the precision of the format *)
Hypothesis Hprec : e <= fexp64 (Zdigits2 (N / D) + e).

Let g := Zdigits2 (N / D) + e.
Let E1 := fexp64 g.

Lemma round_pair_eq : round_pair N D e = (rne N (2 ^ (E1 - e) * D), E1).
Proof.
  assert (HE : e <= E1) by exact Hprec.
  unfold round_pair. fold g. fold E1.
  rewrite Z.max_r by lia. f_equal. lia.
Qed.

Lemma E1_ge : e <= E1.
Proof. exact Hprec. Qed.

(** a multiple [C * 2^j] of the grid step above the operand is above
    its rounding *)
Lemma round_pair_le_grid (C j : Z) :
  0 <= C -> E1 <= j ->
  N * 2 ^ (e + K) <= C * 2 ^ (j + K) * D ->
  pairval K (round_pair N D e) <= C * 2 ^ (j + K).
Proof.
  intros HC Hj Hle. rewrite round_pair_eq. unfold pairval. cbn [fst snd].
  pose proof E1_ge as HE.
  assert (Hm : rne N (2 ^ (E1 - e) * D) <= C * 2 ^ (j - E1)).
  { apply rne_le_int.
    - apply Z.mul_pos_pos; [apply pow2_pos; lia | exact HD].
    - replace (C * 2 ^ (j - E1) * (2 ^ (E1 - e) * D)) with (C * 2 ^ (j - e) * D).
      + pose proof (pow2_pos (e + K) HK) as Hp.
        replace (2 ^ (j + K)) with (2 ^ (j - e) * 2 ^ (e + K)) in Hle
          by (rewrite <- Z.pow_add_r by lia; f_equal; lia).
        assert (H2 : 2 ^ (e + K) * N <= 2 ^ (e + K) * (C * 2 ^ (j - e) * D)) by lia.
        apply Z.mul_le_mono_pos_l in H2; assumption.
      + replace (j - e) with ((j - E1) + (E1 - e)) by lia.
        rewrite Z.pow_add_r by lia. ring. }
  replace (2 ^ (j + K)) with (2 ^ (j - E1) * 2 ^ (E1 + K))
    by (rewrite <- Z.pow_add_r by lia; f_equal; lia).
  pose proof (pow2_pos (E1 + K) ltac:(lia)) as Hp.
  rewrite Z.mul_assoc. apply Z.mul_le_mono_nonneg_r; lia.
Qed.

(** a multiple of the grid step below the operand is below its
    rounding *)
Lemma round_pair_ge_grid (C j : Z) :
  0 <= C -> E1 <= j ->
  C * 2 ^ (j + K) * D <= N * 2 ^ (e + K) ->
  C * 2 ^ (j + K) <= pairval K (round_pair N D e).
Proof.
  intros HC Hj Hle. rewrite round_pair_eq. unfold pairval. cbn [fst snd].
  pose proof E1_ge as HE.
  assert (Hm : C * 2 ^ (j - E1) <= rne N (2 ^ (E1 - e) * D)).
  { apply rne_ge_int.
    - apply Z.mul_pos_pos; [apply pow2_pos; lia | exact HD].
    - replace (C * 2 ^ (j - E1) * (2 ^ (E1 - e) * D)) with (C * 2 ^ (j - e) * D).
      + pose proof (pow2_pos (e + K) HK) as Hp.
        replace (2 ^ (j + K)) with (2 ^ (j - e) * 2 ^ (e + K)) in Hle
          by (rewrite <- Z.pow_add_r by lia; f_equal; lia).
        assert (H2 : 2 ^ (e + K) * (C * 2 ^ (j - e) * D) <= 2 ^ (e + K) * N) by lia.
        apply Z.mul_le_mono_pos_l in H2; assumption.
      + replace (j - e) with ((j - E1) + (E1 - e)) by lia.
        rewrite Z.pow_add_r by lia. ring. }
  replace (2 ^ (j + K)) with (2 ^ (j - E1) * 2 ^ (E1 + K))
    by (rewrite <- Z.pow_add_r by lia; f_equal; lia).
  pose proof (pow2_pos (E1 + K) ltac:(lia)) as Hp.
  rewrite Z.mul_assoc. apply Z.mul_le_mono_nonneg_r; lia.
Qed.

(** the operand lies below [2^g] *)
Lemma operand_lt_pow : N * 2 ^ (e + K) < 2 ^ (g + K) * D.
Proof.
  pose proof (num_lt_pow_digits N D HN HD) as H.
  pose proof (Zdigits2_nonneg (N / D)) as Hd.
  pose proof (pow2_pos (e + K) HK) as Hp.
  replace (2 ^ (g + K)) with (2 ^ Zdigits2 (N / D) * 2 ^ (e + K))
    by (rewrite <- Z.pow_add_r by lia; f_equal; unfold g; lia).
  nia.
Qed.

(** and, when its integer part is not zero, above [2^(g-1)] *)
Lemma operand_ge_pow : 0 < N / D -> 2 ^ (g - 1 + K) * D <= N * 2 ^ (e + K).
Proof.
  intros Hq.
  pose proof (num_ge_pow_digits N D HN HD Hq) as H.
  pose proof (Zdigits2_bounds (N / D) Hq) as _.
  assert (Hd : 1 <= Zdigits2 (N / D)).
  { pose proof (Zdigits2_ge (N / D) 0 ltac:(lia) ltac:(cbn; lia)). lia. }
  pose proof (pow2_pos (e + K) HK) as Hp.
  replace (2 ^ (g - 1 + K)) with (2 ^ (Zdigits2 (N / D) - 1) * 2 ^ (e + K))
    by (rewrite <- Z.pow_add_r by lia; f_equal; unfold g; lia).
  nia.
Qed.

End RoundOrder.

(** Rounding is monotone: of two operands, each given with at least the
    precision of the format, the smaller has the smaller rounding. *)
Theorem round_pair_mono (K N D e N' D' e' : Z) :
  0 <= N -> 0 < D -> 0 <= e + K -> e <= fexp64 (Zdigits2 (N / D) + e) ->
  0 <= N' -> 0 < D' -> 0 <= e' + K -> e' <= fexp64 (Zdigits2 (N' / D') + e') ->
  N * 2 ^ (e + K) * D' <= N' * 2 ^ (e' + K) * D ->
  pairval K (round_pair N D e) <= pairval K (round_pair N' D' e').
Proof.
  intros HN HD HK HP HN' HD' HK' HP' Hle.
  pose proof (Zdigits2_nonneg (N / D)) as Hd.
  pose proof (Zdigits2_nonneg (N' / D')) as Hd'.
  set (g := Zdigits2 (N / D) + e) in *.
  set (g' := Zdigits2 (N' / D') + e') in *.
  pose proof (fexp64_eq g) as HE. pose proof (fexp64_eq g') as HE'.
  pose proof (Z.div_pos N D HN HD) as Hq.
  pose proof (Z.div_pos N' D' HN' HD') as Hq'.
  destruct (Z.lt_trichotomy (fexp64 g) (fexp64 g')) as [Hlt | [Heq | Hgt]].
  - (* the larger operand is rounded on a coarser grid *)
    assert (Hq'pos : 0 < N' / D').
    { destruct (Z.eq_dec (N' / D') 0) as [H0|H0]; [| lia].
      exfalso. unfold g' in *. rewrite H0 in *. change (Zdigits2 0) with 0 in *. lia. }
    apply Z.le_trans with (1 * 2 ^ (Z.max g (fexp64 g) + K)).
    + apply round_pair_le_grid; try assumption.
      * lia.
      * fold g. lia.
      * pose proof (operand_lt_pow K N D e HN HD HK) as Hop. fold g in Hop.
        assert (2 ^ (g + K) <= 2 ^ (Z.max g (fexp64 g) + K)) by (apply pow2_le; lia).
        nia.
    + apply Z.le_trans with (1 * 2 ^ (g' - 1 + K)).
      * rewrite !Z.mul_1_l. apply pow2_le. lia.
      * apply round_pair_ge_grid; try assumption.
        -- lia.
        -- fold g'. lia.
        -- pose proof (operand_ge_pow K N' D' e' HN' HD' HK' Hq'pos) as Hop.
           fold g' in Hop. lia.
  - (* both operands are rounded on the same grid *)
    rewrite (round_pair_eq N D e HP), (round_pair_eq N' D' e' HP').
    fold g g'. unfold pairval. cbn [fst snd]. rewrite <- Heq.
    apply Z.mul_le_mono_nonneg_r; [apply Z.lt_le_incl, pow2_pos; lia |].
    apply rne_mono.
    + apply Z.mul_pos_pos; [apply pow2_pos; lia | exact HD].
    + apply Z.mul_pos_pos; [apply pow2_pos; lia | exact HD'].
    + set (E1 := fexp64 g) in *.
      assert (HS : 2 ^ (E1 + K) = 2 ^ (E1 - e) * 2 ^ (e + K))
        by (rewrite <- Z.pow_add_r by lia; f_equal; lia).
      assert (HS' : 2 ^ (E1 + K) = 2 ^ (E1 - e') * 2 ^ (e' + K))
        by (rewrite <- Z.pow_add_r by lia; f_equal; lia).
      pose proof (pow2_pos (E1 + K) ltac:(lia)) as HSpos.
      pose proof (pow2_pos (E1 - e) ltac:(lia)) as Ha.
      pose proof (pow2_pos (E1 - e') ltac:(lia)) as Ha'.
      pose proof (pow2_pos (e + K) HK) as Hp.
      pose proof (pow2_pos (e' + K) HK') as Hp'.
      set (S := 2 ^ (E1 + K)) in *. set (a := 2 ^ (E1 - e)) in *.
      set (a' := 2 ^ (E1 - e')) in *. set (p := 2 ^ (e + K)) in *.
      set (p' := 2 ^ (e' + K)) in *.
      assert (H1 : a * a' * (N * p * D') <= a * a' * (N' * p' * D)).
      { apply Z.mul_le_mono_nonneg_l; [nia | exact Hle]. }
      assert (H2 : S * (N * (a' * D')) <= S * (N' * (a * D))).
      { replace (S * (N * (a' * D'))) with (a * a' * (N * p * D')) by (rewrite HS; ring).
        replace (S * (N' * (a * D))) with (a * a' * (N' * p' * D)) by (rewrite HS'; ring).
        exact H1. }
      apply Z.mul_le_mono_pos_l in H2; assumption.
  - (* impossible: the smaller operand would need the coarser grid *)
    exfalso.
    assert (Hqpos : 0 < N / D).
    { destruct (Z.eq_dec (N / D) 0) as [H0|H0]; [| lia].
      exfalso. unfold g in *. rewrite H0 in *. change (Zdigits2 0) with 0 in *. lia. }
    pose proof (operand_ge_pow K N D e HN HD HK Hqpos) as Hlo. fold g in Hlo.
    pose proof (operand_lt_pow K N' D' e' HN' HD' HK') as Hhi. fold g' in Hhi.
    assert (Hpow : 2 ^ (g' + K) <= 2 ^ (g - 1 + K)) by (apply pow2_le; lia).
    pose proof (pow2_pos (g' + K) ltac:(lia)) as Hp1.
    nia.
Qed.

Lemma rne_nonneg (N D : Z) : 0 <= N -> 0 < D -> 0 <= rne N D.
Proof.
  intros HN HD. pose proof (rne_bounds N D) as [H _].
  pose proof (Z.div_pos N D HN HD). lia.
Qed.

Lemma round_pair_mantissa (N D e : Z) :
  0 <= N -> 0 < D -> 0 <= fst (round_pair N D e) <= 2 ^ 53.
Proof.
  intros HN HD. unfold round_pair. cbn [fst].
  pose proof (shifted_mantissa_lt N D e HN HD) as Hlt. cbv zeta in Hlt.
  set (n := Z.max 0 (fexp64 (Zdigits2 (N / D) + e) - e)) in *.
  assert (HDn : 0 < 2 ^ n * D).
  { apply Z.mul_pos_pos; [apply pow2_pos; unfold n; lia | exact HD]. }
  pose proof (rne_bounds N (2 ^ n * D)) as [_ Hhi].
  pose proof (rne_nonneg N (2 ^ n * D) HN HDn). lia.
Qed.

Lemma round_pair_exponent (N D e : Z) :
  snd (round_pair N D e) = Z.max e (fexp64 (Zdigits2 (N / D) + e)).
Proof. unfold round_pair. cbn [snd]. lia. Qed.

Lemma float_of_pair_val (m e : Z) :
  0 <= m <= 2 ^ 53 -> - scale_exp <= e -> e + 1 <= emax - prec ->
  nonneg_finite e (float_of_pair (m, e))
  /\ sval (float_of_pair (m, e)) = pairval scale_exp (m, e).
Proof.
  intros Hm He Hov. unfold float_of_pair, pairval. cbn [fst snd].
  destruct (Z.eqb_spec m (2 ^ 53)) as [->|Hne].
  - unfold finite_or_inf. change (2 ^ 52) with (Zpos (2 ^ 52)%positive).
    destruct (Z.leb_spec (e + 1) (emax - prec)); [| lia].
    split.
    + right. eexists _, _. split; [reflexivity | lia].
    + cbn [sval]. replace (e + 1 + scale_exp) with (1 + (e + scale_exp)) by lia.
      rewrite Z.pow_add_r by lia. change (2 ^ 53) with (Zpos (2 ^ 52)%positive * 2 ^ 1).
      ring.
  - unfold finite_or_inf. destruct m as [|p|p]; [| | lia].
    + split; [left; reflexivity | cbn [sval]; lia].
    + destruct (Z.leb_spec e (emax - prec)); [| lia].
      split; [right; eexists _, _; split; [reflexivity | lia] | reflexivity].
Qed.

Lemma int_of_float_val (f : spec_float) :
  nonneg_finite (- scale_exp) f -> int_of_float f = inr (sval f / 2 ^ scale_exp).
Proof.
  intros [-> | (m & e & -> & He)].
  - reflexivity.
  - cbn [int_of_float sval].
    destruct e as [|p|p].
    + rewrite Z.shiftl_mul_pow2 by lia. cbn [Z.add].
      rewrite Z.pow_0_r, Z.mul_1_r. rewrite Z.div_mul by (apply Z.pow_nonzero; unfold scale_exp; lia).
      reflexivity.
    + rewrite Z.shiftl_mul_pow2 by lia.
      rewrite Z.pow_add_r by (unfold scale_exp; lia).
      rewrite Z.mul_assoc, Z.div_mul by (apply Z.pow_nonzero; unfold scale_exp; lia).
      reflexivity.
    + rewrite Z.shiftr_div_pow2 by lia.
      replace (2 ^ scale_exp) with (2 ^ (Zneg p + scale_exp) * 2 ^ Zpos p)
        by (rewrite <- Z.pow_add_r by lia; f_equal; lia).
      rewrite (Z.mul_comm (Zpos m)).
      rewrite Z.div_mul_cancel_l; [reflexivity | apply Z.pow_nonzero; lia
                                   | apply Z.pow_nonzero; lia].
Qed.

Lemma SFdiv_core_spec (d t : Z) :
  0 < d -> 0 < t ->
  SFdiv_core_binary prec emax d 0 t 0
  = (div_num d t / t, div_exp d t, new_location t (div_num d t mod t)).
Proof.
  intros Hd Ht. unfold SFdiv_core_binary.
  rewrite !Z.add_0_r. change (0 - 0) with 0. change (fexp prec emax) with fexp64.
  fold (div_exp d t). rewrite Z.sub_0_l.
  assert (Hs : 0 <= - div_exp d t) by (unfold div_exp; lia).
  assert (Hm : match - div_exp d t with
               | 0 => d
               | Zpos _ => Z.shiftl d (- div_exp d t)
               | Zneg _ => 0
               end = div_num d t).
  { unfold div_num. destruct (- div_exp d t) as [|p|p] eqn:Hp.
    - rewrite Z.pow_0_r. lia.
    - rewrite Z.shiftl_mul_pow2 by lia. reflexivity.
    - lia. }
  rewrite Hm. unfold Z.div, Z.modulo.
  destruct (Z.div_eucl (div_num d t) t) as [q r]. reflexivity.
Qed.

Lemma SFdiv_pos_spec (pd pt : positive) :
  SFdiv prec emax (S754_finite false pd 0) (S754_finite false pt 0)
  = float_of_pair (round_pair (div_num (Zpos pd) (Zpos pt)) (Zpos pt)
                              (div_exp (Zpos pd) (Zpos pt))).
Proof.
  unfold SFdiv. rewrite SFdiv_core_spec by lia. cbn [xorb].
  apply binary_round_aux_spec; [| lia].
  unfold div_num. apply Z.mul_nonneg_nonneg; [lia |].
  apply Z.lt_le_incl, pow2_pos. unfold div_exp. lia.
Qed.

Lemma div_exp_bounds (d t : Z) : -1074 <= div_exp d t <= 0.
Proof. unfold div_exp. rewrite fexp64_eq. lia. Qed.

Lemma fexp64_mono (a b : Z) : a <= b -> fexp64 a <= fexp64 b.
Proof. rewrite !fexp64_eq. lia. Qed.

(** The quotient is computed with at least the precision of the format. *)
Lemma div_prec (d t : Z) :
  0 < d -> 0 < t ->
  div_exp d t <= fexp64 (Zdigits2 (div_num d t / t) + div_exp d t).
Proof.
  intros Hd Ht.
  pose proof (div_exp_bounds d t) as He.
  apply Z.le_trans with (fexp64 (Zdigits2 d - Zdigits2 t)); [unfold div_exp; lia |].
  apply fexp64_mono.
  pose proof (Zdigits2_bounds d Hd) as [Hdlo _].
  pose proof (Zdigits2_bounds t Ht) as [_ Hthi].
  pose proof (Zdigits2_nonneg (div_num d t / t)) as Hq.
  pose proof (Zdigits2_nonneg t) as Hdt.
  assert (Hdd : 1 <= Zdigits2 d).
  { pose proof (Zdigits2_ge d 0 ltac:(lia) ltac:(cbn; lia)). lia. }
  set (s := - div_exp d t) in *.
  destruct (Z_lt_le_dec (Zdigits2 d - 1 + s - Zdigits2 t) 0) as [Hneg|Hk]; [lia |].
  set (k := Zdigits2 d - 1 + s - Zdigits2 t) in *.
  assert (Hle : 2 ^ k <= div_num d t / t).
  { apply Z.div_le_lower_bound; [exact Ht |].
    unfold div_num. fold s.
    assert (H1 : 2 ^ (Zdigits2 d - 1 + s) = 2 ^ k * 2 ^ Zdigits2 t)
      by (rewrite <- Z.pow_add_r by lia; f_equal; unfold k; lia).
    assert (H2 : 2 ^ (Zdigits2 d - 1 + s) = 2 ^ (Zdigits2 d - 1) * 2 ^ s)
      by (rewrite <- Z.pow_add_r by lia; reflexivity).
    pose proof (pow2_pos k Hk). pose proof (pow2_pos s ltac:(lia)).
    nia. }
  pose proof (Zdigits2_ge _ k Hk Hle). unfold k in *. lia.
Qed.

Lemma div_num_scaled (d t : Z) :
  div_num d t * 2 ^ (div_exp d t + scale_exp) = d * 2 ^ scale_exp.
Proof.
  pose proof (div_exp_bounds d t) as He.
  unfold div_num. rewrite <- Z.mul_assoc, <- Z.pow_add_r by (unfold scale_exp; lia).
  do 2 f_equal. lia.
Qed.

(** the rounding of an operand that is at most [C], with [C < 2^c] *)
Lemma round_small (N D e C c : Z) :
  0 <= N -> 0 < D -> - scale_exp <= e -> e <= fexp64 (Zdigits2 (N / D) + e) ->
  0 <= C -> 0 <= c <= 53 -> C < 2 ^ c -> e <= 0 ->
  N * 2 ^ (e + scale_exp) <= C * 2 ^ scale_exp * D ->
  nonneg_finite (-1074) (float_of_pair (round_pair N D e))
  /\ sval (float_of_pair (round_pair N D e)) = pairval scale_exp (round_pair N D e)
  /\ pairval scale_exp (round_pair N D e) <= C * 2 ^ scale_exp.
Proof.
  intros HN HD He HP HC Hc HCc He0 Hle.
  assert (HeK : 0 <= e + scale_exp) by lia.
  (* the integer part of the operand at exponent [e] is below [2^(c - e)] *)
  assert (Hdig : Zdigits2 (N / D) + e <= c).
  { assert (Hlt : N / D < 2 ^ (c - e)).
    { apply Z.div_lt_upper_bound; [exact HD |].
      pose proof (pow2_pos (e + scale_exp) HeK) as Hp.
      assert (H1 : 2 ^ (c - e) * 2 ^ (e + scale_exp) = 2 ^ c * 2 ^ scale_exp)
        by (rewrite <- !Z.pow_add_r by (unfold scale_exp in *; lia); f_equal; lia).
      pose proof (pow2_pos scale_exp ltac:(unfold scale_exp; lia)) as HpK.
      assert (H3 : C * 2 ^ scale_exp * D < 2 ^ c * 2 ^ scale_exp * D).
      { apply Z.mul_lt_mono_pos_r; [exact HD |].
        apply Z.mul_lt_mono_pos_r; [exact HpK | exact HCc]. }
      assert (H2 : N * 2 ^ (e + scale_exp) < D * 2 ^ (c - e) * 2 ^ (e + scale_exp)).
      { replace (D * 2 ^ (c - e) * 2 ^ (e + scale_exp)) with (2 ^ c * 2 ^ scale_exp * D)
          by (rewrite <- H1; ring).
        lia. }
      apply Z.mul_lt_mono_pos_r in H2; assumption. }
    pose proof (Zdigits2_le (N / D) (c - e) (Z.div_pos N D HN HD) ltac:(lia) Hlt). lia. }
  pose proof (round_pair_mantissa N D e HN HD) as Hm.
  pose proof (round_pair_exponent N D e) as Hex.
  pose proof (fexp64_eq (Zdigits2 (N / D) + e)) as Hfe.
  assert (Hgrid : pairval scale_exp (round_pair N D e) <= C * 2 ^ (0 + scale_exp)).
  { apply round_pair_le_grid; try assumption; lia. }
  rewrite Z.add_0_l in Hgrid.
  destruct (round_pair N D e) as [m1 e1] eqn:Hrp. cbn [fst snd] in Hm, Hex.
  destruct (float_of_pair_val m1 e1 Hm ltac:(unfold scale_exp; lia)
              ltac:(unfold emax, prec; lia)) as [Hnf Hval].
  split; [| split; [exact Hval | exact Hgrid]].
  destruct Hnf as [H0 | (m & e2 & Hf & He2)]; [left; exact H0 |].
  right. exists m, e2. split; [exact Hf | lia].
Qed.

Lemma quot_zero (t : Z) : 0 < t -> quot 0 t = S754_zero false.
Proof. destruct t; try lia. reflexivity. Qed.

Lemma quot_pos (d t : Z) :
  0 < d -> 0 < t ->
  quot d t = float_of_pair (round_pair (div_num d t) t (div_exp d t)).
Proof.
  destruct d as [|pd|pd]; try lia. destruct t as [|pt|pt]; try lia.
  intros _ _. apply SFdiv_pos_spec.
Qed.

Lemma div_num_nonneg (d t : Z) : 0 <= d -> 0 <= div_num d t.
Proof.
  intros Hd. unfold div_num. apply Z.mul_nonneg_nonneg; [exact Hd |].
  apply Z.lt_le_incl, pow2_pos. pose proof (div_exp_bounds d t). lia.
Qed.

Lemma quot_props (d t : Z) :
  0 < t -> 0 <= d <= t ->
  nonneg_finite (-1074) (quot d t) /\ sval (quot d t) <= 2 ^ scale_exp
  /\ (0 < d -> sval (quot d t)
               = pairval scale_exp (round_pair (div_num d t) t (div_exp d t))).
Proof.
  intros Ht Hd.
  destruct (Z.eq_dec d 0) as [->|Hne].
  - rewrite quot_zero by exact Ht.
    split; [left; reflexivity | split; [cbn; lia | lia]].
  - assert (Hdpos : 0 < d) by lia.
    rewrite (quot_pos d t Hdpos Ht).
    pose proof (div_exp_bounds d t) as He.
    destruct (round_small (div_num d t) t (div_exp d t) 1 1) as (H1 & H2 & H3);
      try lia.
    + apply div_num_nonneg; lia.
    + unfold scale_exp; lia.
    + apply div_prec; assumption.
    + rewrite div_num_scaled. pose proof (pow2_pos scale_exp ltac:(unfold scale_exp; lia)). nia.
    + split; [exact H1 | split; [| intros _; exact H2]].
      rewrite H2. lia.
Qed.

Lemma quot_mono (d d' t : Z) :
  0 < t -> 0 <= d <= d' -> d' <= t -> sval (quot d t) <= sval (quot d' t).
Proof.
  intros Ht Hd Hd'.
  destruct (quot_props d t Ht ltac:(lia)) as (_ & _ & Hv).
  destruct (quot_props d' t Ht ltac:(lia)) as (Hnf' & _ & Hv').
  destruct (Z.eq_dec d 0) as [->|Hne].
  - rewrite quot_zero by exact Ht. cbn [sval].
    destruct Hnf' as [-> | (m & e & -> & _)]; cbn [sval]; [lia |].
    apply Z.mul_nonneg_nonneg; [lia | apply Z.pow_nonneg; lia].
  - rewrite Hv, Hv' by lia.
    pose proof (div_exp_bounds d t). pose proof (div_exp_bounds d' t).
    apply round_pair_mono; try lia.
    + apply div_num_nonneg; lia.
    + unfold scale_exp; lia.
    + apply div_prec; lia.
    + apply div_num_nonneg; lia.
    + unfold scale_exp; lia.
    + apply div_prec; lia.
    + rewrite !div_num_scaled. pose proof (pow2_pos scale_exp ltac:(unfold scale_exp; lia)). nia.
Qed.

Lemma sval_nonneg (f : spec_float) : 0 <= sval f.
Proof.
  destruct f as [s|s| |[|] m e]; cbn [sval]; try lia.
  all: apply Z.mul_nonneg_nonneg; [lia | apply Z.pow_nonneg; lia].
Qed.

Lemma nonneg_finite_weaken (lo lo' : Z) (f : spec_float) :
  lo' <= lo -> nonneg_finite lo f -> nonneg_finite lo' f.
Proof.
  intros Hlo [H | (m & e & H & He)]; [left; exact H |].
  right. exists m, e. split; [exact H | lia].
Qed.

Lemma times100_zero : times100 (S754_zero false) = S754_zero false.
Proof. reflexivity. Qed.

Lemma times100_finite (m : positive) (e : Z) :
  times100 (S754_finite false m e)
  = float_of_pair (round_pair (Zpos m * (100 * 2 ^ 46)) 1 (e - 46)).
Proof.
  unfold times100, f100, SFmul. cbn [xorb].
  change (Zpos (m * 7036874417766400)) with (Zpos m * (100 * 2 ^ 46)).
  replace (e + -46) with (e - 46) by lia.
  set (N := Zpos m * (100 * 2 ^ 46)).
  assert (HN : 0 <= N) by (unfold N; lia).
  pose proof (binary_round_aux_spec N 1 (e - 46) HN ltac:(lia)) as H.
  rewrite Z.div_1_r, Z.mod_1_r in H. exact H.
Qed.

Lemma product_prec (m : positive) (e : Z) :
  e - 46 <= fexp64 (Zdigits2 (Zpos m * (100 * 2 ^ 46) / 1) + (e - 46)).
Proof.
  rewrite Z.div_1_r, fexp64_eq.
  assert (2 ^ 52 <= Zpos m * (100 * 2 ^ 46)) by (change (2 ^ 52) with (1 * 2 ^ 52); nia).
  pose proof (Zdigits2_ge _ 52 ltac:(lia) H). lia.
Qed.

Lemma product_scaled (m : positive) (e : Z) :
  - scale_exp <= e - 46 ->
  Zpos m * (100 * 2 ^ 46) * 2 ^ (e - 46 + scale_exp) = 100 * (Zpos m * 2 ^ (e + scale_exp)).
Proof.
  intros He. replace (e + scale_exp) with (46 + (e - 46 + scale_exp)) by lia.
  rewrite (Z.pow_add_r 2 46 (e - 46 + scale_exp)) by lia. ring.
Qed.

(** a positive float of value at most one has a non-positive exponent *)
Lemma exponent_of_small (m : positive) (e : Z) :
  - scale_exp <= e -> Zpos m * 2 ^ (e + scale_exp) <= 2 ^ scale_exp -> e <= 0.
Proof.
  intros He Hle. destruct (Z_le_gt_dec e 0) as [|Hgt]; [assumption | exfalso].
  assert (2 ^ (scale_exp + 1) <= 2 ^ (e + scale_exp)) by (apply pow2_le; unfold scale_exp in *; lia).
  rewrite Z.pow_add_r in H by (unfold scale_exp; lia).
  pose proof (pow2_pos scale_exp ltac:(unfold scale_exp; lia)). nia.
Qed.

Lemma product_round_small (m : positive) (e : Z) :
  -1074 <= e -> Zpos m * 2 ^ (e + scale_exp) <= 2 ^ scale_exp ->
  let rp := round_pair (Zpos m * (100 * 2 ^ 46)) 1 (e - 46) in
  nonneg_finite (-1074) (float_of_pair rp)
  /\ sval (float_of_pair rp) = pairval scale_exp rp
  /\ pairval scale_exp rp <= 100 * 2 ^ scale_exp.
Proof.
  intros He Hle rp.
  pose proof (exponent_of_small m e ltac:(unfold scale_exp; lia) Hle) as He0.
  assert (A1 : 0 <= Zpos m * (100 * 2 ^ 46)) by lia.
  assert (A2 : 0 < 1) by lia.
  assert (A3 : - scale_exp <= e - 46) by (unfold scale_exp; lia).
  assert (A4 : 0 <= 100) by lia.
  assert (A5 : 0 <= 7 <= 53) by lia.
  assert (A6 : 100 < 2 ^ 7) by (cbn; lia).
  assert (A7 : e - 46 <= 0) by lia.
  assert (A8 : Zpos m * (100 * 2 ^ 46) * 2 ^ (e - 46 + scale_exp) <= 100 * 2 ^ scale_exp * 1).
  { rewrite product_scaled by exact A3. lia. }
  exact (round_small _ 1 (e - 46) 100 7 A1 A2 A3 (product_prec m e) A4 A5 A6 A7 A8).
Qed.

Lemma times100_props (q : spec_float) :
  nonneg_finite (-1074) q -> sval q <= 2 ^ scale_exp ->
  nonneg_finite (-1074) (times100 q) /\ sval (times100 q) <= 100 * 2 ^ scale_exp.
Proof.
  intros [-> | (m & e & -> & He)] Hle.
  - rewrite times100_zero. split; [left; reflexivity | cbn [sval]].
    pose proof (pow2_pos scale_exp ltac:(unfold scale_exp; lia)). lia.
  - cbn [sval] in Hle. rewrite times100_finite.
    destruct (product_round_small m e He Hle) as (H1 & H2 & H3).
    split; [exact H1 | rewrite H2; exact H3].
Qed.

Lemma times100_val (m : positive) (e : Z) :
  -1074 <= e -> Zpos m * 2 ^ (e + scale_exp) <= 2 ^ scale_exp ->
  sval (times100 (S754_finite false m e))
  = pairval scale_exp (round_pair (Zpos m * (100 * 2 ^ 46)) 1 (e - 46)).
Proof.
  intros He Hle. rewrite times100_finite.
  destruct (product_round_small m e He Hle) as (_ & H2 & _). exact H2.
Qed.

Lemma times100_mono (q q' : spec_float) :
  nonneg_finite (-1074) q -> nonneg_finite (-1074) q' ->
  sval q <= sval q' -> sval q' <= 2 ^ scale_exp ->
  sval (times100 q) <= sval (times100 q').
Proof.
  intros [-> | (m & e & -> & He)] Hq' Hle Hle'.
  - rewrite times100_zero. cbn [sval]. apply sval_nonneg.
  - destruct Hq' as [-> | (m' & e' & -> & He')].
    + exfalso. cbn [sval] in Hle.
      pose proof (pow2_pos (e + scale_exp) ltac:(unfold scale_exp; lia)). nia.
    + cbn [sval] in Hle, Hle'.
      rewrite !times100_val by lia.
      assert (A3 : - scale_exp <= e - 46) by (unfold scale_exp; lia).
      assert (A3' : - scale_exp <= e' - 46) by (unfold scale_exp; lia).
      apply round_pair_mono; try lia; try apply product_prec.
      rewrite !product_scaled by assumption. lia.
Qed.

(* ====================================================================== *)
(** * The percentage of a well-formed progress event *)

Lemma int_truediv_quot (d t : Z) :
  0 < t -> 0 <= d <= t -> int_truediv d t = inr (quot d t).
Proof.
  intros Ht Hd. unfold int_truediv.
  destruct (Z.eqb_spec t 0) as [H0|_]; [lia |].
  fold (quot d t).
  destruct (quot_props d t Ht Hd) as ([H | (m & e & H & _)] & _); rewrite H; reflexivity.
Qed.

Lemma float_mul_int_100 (q : float) : float_mul_int q 100 = inr (times100 q).
Proof. reflexivity. Qed.

Lemma percent_of_pct (d t : Z) :
  0 < t -> 0 <= d <= t -> percent_of d t = inr (pct d t).
Proof.
  intros Ht Hd. unfold percent_of.
  rewrite (int_truediv_quot d t Ht Hd), float_mul_int_100.
  destruct (quot_props d t Ht Hd) as (Hq & Hle & _).
  destruct (times100_props (quot d t) Hq Hle) as (Hp & _).
  apply int_of_float_val.
  apply (nonneg_finite_weaken (-1074)); [unfold scale_exp; lia | exact Hp].
Qed.

Lemma pct_bounds (d t : Z) : 0 < t -> 0 <= d <= t -> 0 <= pct d t <= 100.
Proof.
  intros Ht Hd. unfold pct.
  destruct (quot_props d t Ht Hd) as (Hq & Hle & _).
  destruct (times100_props (quot d t) Hq Hle) as (_ & Hp).
  pose proof (sval_nonneg (times100 (quot d t))) as H0.
  pose proof (pow2_pos scale_exp ltac:(unfold scale_exp; lia)) as HK.
  split.
  - apply Z.div_pos; assumption.
  - apply Z.div_le_upper_bound; [exact HK | lia].
Qed.

Lemma pct_mono (d d' t : Z) :
  0 < t -> 0 <= d <= d' -> d' <= t -> pct d t <= pct d' t.
Proof.
  intros Ht Hd Hd'. unfold pct.
  pose proof (pow2_pos scale_exp ltac:(unfold scale_exp; lia)) as HK.
  apply Z.div_le_mono; [exact HK |].
  destruct (quot_props d t Ht ltac:(lia)) as (Hq & _ & _).
  destruct (quot_props d' t Ht ltac:(lia)) as (Hq' & Hle' & _).
  apply times100_mono; try assumption.
  apply quot_mono; assumption.
Qed.

(** X1: with a positive total and [0 <= downloaded <= total], the
    percentage is computed without error and lies between 0 and 100. *)
Theorem percent_of_bounded (d t : Z) :
  0 < t -> 0 <= d <= t ->
  exists p, percent_of d t = inr p /\ 0 <= p <= 100.
Proof.
  intros Ht Hd. exists (pct d t).
  split; [apply percent_of_pct | apply pct_bounds]; assumption.
Qed.

(** X2: the percentage does not decrease when [downloaded] grows. *)
Theorem percent_of_monotone (d d' t : Z) :
  0 < t -> 0 <= d <= d' -> d' <= t ->
  exists p p', percent_of d t = inr p /\ percent_of d' t = inr p' /\ p <= p'.
Proof.
  intros Ht Hd Hd'. exists (pct d t), (pct d' t).
  split; [apply percent_of_pct; lia |].
  split; [apply percent_of_pct; lia | apply pct_mono; assumption].
Qed.

Lemma emit_progress_in_range (p : Z) :
  0 <= p <= 100 -> emit_progress p = ([Emit (progress p)], inr tt).
Proof.
  intros Hp. unfold emit_progress.
  replace ((INT_MIN <=? p) && (p <=? INT_MAX)) with true; [reflexivity |].
  symmetry. apply andb_true_intro.
  split; apply Z.leb_le; unfold INT_MIN, INT_MAX; lia.
Qed.

Lemma on_progress_pct (total bytes_remaining : Z) :
  0 < total -> 0 <= bytes_remaining <= total ->
  Worker._on_progress total bytes_remaining
  = ([Emit (progress (pct (total - bytes_remaining) total))], inr tt).
Proof.
  intros Ht Hr. unfold Worker._on_progress, lift.
  rewrite (percent_of_pct (total - bytes_remaining) total Ht ltac:(lia)).
  pose proof (pct_bounds (total - bytes_remaining) total Ht ltac:(lia)) as Hp.
  unfold bind. rewrite (emit_progress_in_range _ Hp). reflexivity.
Qed.

Lemma feed_pct (total : Z) (remaining : list Z) :
  0 < total -> Forall (fun r => 0 <= r <= total) remaining ->
  pytubefix.feed (Worker._on_progress total) remaining
  = (map (fun r => Emit (progress (pct (total - r) total))) remaining, inr tt).
Proof.
  intros Ht Hall. induction Hall as [|r rest Hr _ IH]; [reflexivity |].
  cbn [pytubefix.feed map]. rewrite (on_progress_pct total r Ht Hr), IH. reflexivity.
Qed.

Lemma nondecreasing_pct (total : Z) (remaining : list Z) :
  0 < total -> Forall (fun r => 0 <= r <= total) remaining ->
  nonincreasing remaining ->
  nondecreasing (map (fun r => pct (total - r) total) remaining).
Proof.
  intros Ht Hall. induction Hall as [|r rest Hr Hrest IH]; [intros _; exact I |].
  destruct rest as [|r' rest']; [intros _; exact I |].
  intros [Hle Hni]. cbn [map nondecreasing]. split.
  - inversion Hrest; subst. apply pct_mono; lia.
  - apply IH. exact Hni.
Qed.

(** X3: percentages over a transfer.  When the stream has a positive
    size and the callbacks report a [bytes_remaining] between 0 and
    that size which does not grow (so that the bytes downloaded do not
    decrease), every callback emits one [progress] signal, no callback
    raises, and the emitted percentages are non-decreasing and lie
    between 0 and 100. *)
Theorem progress_nondecreasing_bounded (total : Z) (remaining : list Z) :
  0 < total ->
  Forall (fun r => 0 <= r <= total) remaining ->
  nonincreasing remaining ->
  exists ps : list Z,
    pytubefix.feed (Worker._on_progress total) remaining
    = (map (fun p => Emit (progress p)) ps, inr tt)
    /\ List.length ps = List.length remaining
    /\ Forall (fun p => 0 <= p <= 100) ps
    /\ nondecreasing ps.
Proof.
  intros Ht Hall Hni.
  exists (map (fun r => pct (total - r) total) remaining).
  split; [| split; [| split]].
  - rewrite (feed_pct total remaining Ht Hall), map_map. reflexivity.
  - apply length_map.
  - apply Forall_map. eapply Forall_impl; [| exact Hall].
    intros r Hr. cbn beta in Hr |- *. apply pct_bounds; lia.
  - apply nondecreasing_pct; assumption.
Qed.

Lemma progress_nondecreasing_bounded_witness :
  exists ps : list Z,
    pytubefix.feed (Worker._on_progress 100) [71; 43; 42; 0]
    = (map (fun p => Emit (progress p)) ps, inr tt)
    /\ List.length ps = 4%nat
    /\ Forall (fun p => 0 <= p <= 100) ps
    /\ nondecreasing ps.
Proof.
  apply (progress_nondecreasing_bounded 100 [71; 43; 42; 0]).
  - lia.
  - repeat constructor; lia.
  - cbn. lia.
Defined.

(* ====================================================================== *)
(** * Further properties of the percentage *)

Lemma percent_of_bounded_witness :
  exists p, percent_of 29 100 = inr p /\ 0 <= p <= 100.
Proof. apply (percent_of_bounded 29 100); lia. Defined.

Lemma percent_of_monotone_witness :
  exists p p', percent_of 57 100 = inr p /\ percent_of 58 100 = inr p' /\ p <= p'.
Proof. apply (percent_of_monotone 57 58 100); lia. Defined.

(* ====================================================================== *)
(** * The paths of [Worker.run] after the constructor *)

(** A transfer whose callbacks are well formed: the call, one
    [progress] per chunk, and the end that the library gives it. *)
Lemma download_well_formed (s : pytubefix.Stream) (total : Z) (out fp : string) :
  0 < total ->
  Forall (fun r => 0 <= r <= total) (pytubefix.chunks s) ->
  pytubefix.download s (Worker._on_progress total) out fp
  = (CallDownload out fp
       :: map (fun r => Emit (progress (pct (total - r) total))) (pytubefix.chunks s),
     pytubefix.download_result s).
Proof.
  intros Ht Hall. unfold pytubefix.download, call, lift.
  rewrite (feed_pct total _ Ht Hall). cbn [bind app].
  rewrite app_nil_r. reflexivity.
Qed.

(** X4: the transfer path.  When a stream of positive size is selected
    and every callback reports a [bytes_remaining] between 0 and that
    size, [run] asks for the object, the streams, the size and the
    transfer, emits one [progress] between 0 and 100 per chunk, and
    ends with one [finished]: the "saved" message, which names the
    output directory, if [download] returned, and the download-error
    message of the exception if it raised. *)
Theorem run_transfer (YouTube : pytubefix.Constructor) (self : Worker.t)
    (yt : pytubefix.YouTube) (q : pytubefix.StreamQuery)
    (s : pytubefix.Stream) (total : Z) :
  YouTube (Worker.url self) (Worker.proxies_arg self) = inr yt ->
  pytubefix.streams yt = inr q ->
  Worker.select_stream self q = Some s ->
  pytubefix.filesize s = inr total ->
  0 < total ->
  Forall (fun r => 0 <= r <= total) (pytubefix.chunks s) ->
  exists ps : list Z,
    Worker.run YouTube self
    = ([CallYouTube (Worker.url self) (Worker.proxies_arg self);
        GetStreams; GetFilesize; CallDownload (Worker.out_path self) ""]
       ++ map (fun p => Emit (progress p)) ps
       ++ [Emit (finished
                   match pytubefix.download_result s with
                   | inr _ => Worker.msg_saved self
                   | inl exc => Worker.msg_download_error exc
                   end)],
       inr tt)
    /\ List.length ps = List.length (pytubefix.chunks s)
    /\ Forall (fun p => 0 <= p <= 100) ps.
Proof.
  intros Hyt Hq Hsel Hsize Ht Hall.
  exists (map (fun r => pct (total - r) total) (pytubefix.chunks s)).
  split; [| split].
  - unfold Worker.run, call. rewrite Hyt.
    cbn -[pytubefix.download Worker.select_stream].
    rewrite Hq. cbn -[pytubefix.download Worker.select_stream].
    rewrite Hsel, Hsize. cbn -[pytubefix.download].
    rewrite (download_well_formed s total _ _ Ht Hall), map_map.
    destruct (pytubefix.download_result s) as [exc|path]; cbn;
      rewrite <- ?app_assoc; reflexivity.
  - apply length_map.
  - apply Forall_map. eapply Forall_impl; [| exact Hall].
    intros r Hr. cbn beta in Hr |- *. apply pct_bounds; lia.
Qed.

Lemma run_transfer_witness :
  exists ps : list Z,
    Worker.run (YouTube_with [audio_128; audio_broken]) audio_job
    = ([CallYouTube (Worker.url audio_job) None;
        GetStreams; GetFilesize; CallDownload "/tmp" ""]
       ++ map (fun p => Emit (progress p)) ps
       ++ [Emit (finished "✅ Сохранено: /tmp")],
       inr tt)
    /\ List.length ps = 3%nat
    /\ Forall (fun p => 0 <= p <= 100) ps.
Proof.
  apply (run_transfer (YouTube_with [audio_128; audio_broken]) audio_job
           {| pytubefix.streams := inr [audio_128; audio_broken] |}
           [audio_128; audio_broken] audio_128 1000);
    [reflexivity | reflexivity | reflexivity | reflexivity | reflexivity |].
  repeat constructor; cbn; lia.
Defined.

(** X5: when the list of streams cannot be fetched, [run] emits one
    signal, [finished] with the download-error text (not the
    connection-error text of a failing constructor), and asks for no
    size and no transfer. *)
Theorem run_streams_failure (YouTube : pytubefix.Constructor) (self : Worker.t)
    (yt : pytubefix.YouTube) (exc : PyExc) :
  YouTube (Worker.url self) (Worker.proxies_arg self) = inr yt ->
  pytubefix.streams yt = inl exc ->
  Worker.run YouTube self
  = ([CallYouTube (Worker.url self) (Worker.proxies_arg self);
      GetStreams;
      Emit (finished (Worker.msg_download_error exc))],
     inr tt).
Proof.
  intros Hyt Hq. unfold Worker.run, call. rewrite Hyt.
  cbn -[Worker.select_stream]. rewrite Hq. reflexivity.
Qed.

Lemma run_streams_failure_witness :
  Worker.run YouTube_unlistable video_job
  = ([CallYouTube (Worker.url video_job) (Worker.proxies_arg video_job);
      GetStreams;
      Emit (finished "❌ Ошибка при скачивании: <urlopen error timed out>")],
     inr tt).
Proof.
  exact (run_streams_failure YouTube_unlistable video_job
           {| pytubefix.streams :=
                inl {| exc_type := "URLError";
                       exc_str := "<urlopen error timed out>" |} |}
           {| exc_type := "URLError"; exc_str := "<urlopen error timed out>" |}
           eq_refl eq_refl).
Defined.

(** X6: when the size of the selected stream cannot be fetched, [run]
    emits one signal, [finished] with the download-error text of the
    exception, and the transfer is never started. *)
Theorem run_filesize_failure (YouTube : pytubefix.Constructor) (self : Worker.t)
    (yt : pytubefix.YouTube) (q : pytubefix.StreamQuery)
    (s : pytubefix.Stream) (exc : PyExc) :
  YouTube (Worker.url self) (Worker.proxies_arg self) = inr yt ->
  pytubefix.streams yt = inr q ->
  Worker.select_stream self q = Some s ->
  pytubefix.filesize s = inl exc ->
  Worker.run YouTube self
  = ([CallYouTube (Worker.url self) (Worker.proxies_arg self);
      GetStreams; GetFilesize;
      Emit (finished (Worker.msg_download_error exc))],
     inr tt).
Proof.
  intros Hyt Hq Hsel Hsize. unfold Worker.run, call. rewrite Hyt.
  cbn -[pytubefix.download Worker.select_stream].
  rewrite Hq. cbn -[pytubefix.download Worker.select_stream].
  rewrite Hsel, Hsize. reflexivity.
Qed.

Lemma run_filesize_failure_witness :
  Worker.run (YouTube_with [audio_sizeless]) audio_job
  = ([CallYouTube (Worker.url audio_job) None;
      GetStreams; GetFilesize;
      Emit (finished "❌ Ошибка при скачивании: HTTP Error 403: Forbidden")],
     inr tt).
Proof.
  exact (run_filesize_failure (YouTube_with [audio_sizeless]) audio_job
           {| pytubefix.streams := inr [audio_sizeless] |} [audio_sizeless]
           audio_sizeless
           {| exc_type := "HTTPError"; exc_str := "HTTP Error 403: Forbidden" |}
           eq_refl eq_refl eq_refl eq_refl).
Defined.

(** X7: a stream of size zero.  The first callback divides by zero:
    whatever [bytes_remaining] it reports and however the transfer
    would have ended, no [progress] is emitted and the job ends with
    the download-error message "division by zero". *)
Theorem run_zero_size (YouTube : pytubefix.Constructor) (self : Worker.t)
    (yt : pytubefix.YouTube) (q : pytubefix.StreamQuery)
    (s : pytubefix.Stream) (r : Z) (rest : list Z) :
  YouTube (Worker.url self) (Worker.proxies_arg self) = inr yt ->
  pytubefix.streams yt = inr q ->
  Worker.select_stream self q = Some s ->
  pytubefix.filesize s = inr 0 ->
  pytubefix.chunks s = r :: rest ->
  Worker.run YouTube self
  = ([CallYouTube (Worker.url self) (Worker.proxies_arg self);
      GetStreams; GetFilesize; CallDownload (Worker.out_path self) "";
      Emit (finished (Worker.msg_download_error
                        (ZeroDivisionError "division by zero")))],
     inr tt).
Proof.
  intros Hyt Hq Hsel Hsize Hchunks. unfold Worker.run, call. rewrite Hyt.
  cbn -[pytubefix.download Worker.select_stream].
  rewrite Hq. cbn -[pytubefix.download Worker.select_stream].
  rewrite Hsel, Hsize. unfold pytubefix.download. rewrite Hchunks.
  reflexivity.
Qed.

Lemma run_zero_size_witness :
  Worker.run (YouTube_with [audio_empty]) audio_job
  = ([CallYouTube (Worker.url audio_job) None;
      GetStreams; GetFilesize; CallDownload "/tmp" "";
      Emit (finished "❌ Ошибка при скачивании: division by zero")],
     inr tt).
Proof.
  exact (run_zero_size (YouTube_with [audio_empty]) audio_job
           {| pytubefix.streams := inr [audio_empty] |} [audio_empty]
           audio_empty 0 [] eq_refl eq_refl eq_refl eq_refl eq_refl).
Defined.

(* ====================================================================== *)
(** * Sequences of calls on [DownloadThread] *)

(** X8: on an executor whose thread is running and whose loop is set,
    jobs handed to [schedule_task] one after the other are all
    accepted, none raises; they are on the loop in the order they were
    handed over, after the jobs that were there, and the thread and the
    count of threads are unchanged. *)
Theorem schedule_all_running (coros : list Worker.t) :
  forall (self : DownloadThread.t) (l : DownloadThread.EventLoop),
    DownloadThread.isRunning self = true ->
    DownloadThread.loop self = Some l ->
    schedule_all self coros
    = (map DownloadThread.Returned
           (seq (List.length (DownloadThread.scheduled l)) (List.length coros)),
       {| DownloadThread.loop :=
            Some {| DownloadThread.serving := DownloadThread.serving l;
                    DownloadThread.scheduled := DownloadThread.scheduled l ++ coros |};
          DownloadThread.qthread := DownloadThread.qthread self;
          DownloadThread.spawned := DownloadThread.spawned self |}).
Proof.
  induction coros as [|coro rest IH]; intros self l Hrun Hloop.
  - destruct self as [lp th n], l as [sv sc]. cbn in *. subst lp.
    rewrite app_nil_r. reflexivity.
  - cbn [schedule_all]. unfold DownloadThread.schedule_task.
    rewrite Hrun, Hloop. cbn [negb].
    rewrite (IH _ {| DownloadThread.serving := DownloadThread.serving l;
                     DownloadThread.scheduled := DownloadThread.scheduled l ++ [coro] |});
      [| exact Hrun | reflexivity].
    cbn [DownloadThread.loop DownloadThread.qthread DownloadThread.spawned
         DownloadThread.serving DownloadThread.scheduled List.length map seq].
    rewrite length_app, <- app_assoc. cbn [List.length app].
    replace (List.length (DownloadThread.scheduled l) + 1)%nat
      with (S (List.length (DownloadThread.scheduled l))) by lia.
    reflexivity.
Qed.

Lemma schedule_all_running_witness :
  schedule_all running_executor [audio_job; video_job; bad_url_job]
  = ([DownloadThread.Returned 0%nat; DownloadThread.Returned 1%nat;
      DownloadThread.Returned 2%nat],
     {| DownloadThread.loop :=
          Some {| DownloadThread.serving := true;
                  DownloadThread.scheduled := [audio_job; video_job; bad_url_job] |};
        DownloadThread.qthread := DownloadThread.Running;
        DownloadThread.spawned := 1 |}).
Proof.
  exact (schedule_all_running [audio_job; video_job; bad_url_job] running_executor
           {| DownloadThread.serving := true; DownloadThread.scheduled := [] |}
           eq_refl eq_refl).
Defined.

(** X9: [stop] does not take a scheduled job off the loop.  On a
    running executor that serves its loop, a job handed over and then a
    [stop]: the [stop] returns, the thread has finished, the loop is
    stopped and still holds the job after those that were there, and
    from then on [schedule_task] raises for every job. *)
Theorem stop_after_schedule (self : DownloadThread.t) (l : DownloadThread.EventLoop)
    (coro later : Worker.t) :
  DownloadThread.isRunning self = true ->
  DownloadThread.loop self = Some l ->
  DownloadThread.serving l = true ->
  let scheduled' := snd (DownloadThread.schedule_task self coro) in
  let stopped := snd (DownloadThread.stop scheduled') in
  fst (DownloadThread.stop scheduled') = DownloadThread.Returned tt
  /\ DownloadThread.isRunning stopped = false
  /\ DownloadThread.loop stopped
     = Some {| DownloadThread.serving := false;
               DownloadThread.scheduled := DownloadThread.scheduled l ++ [coro] |}
  /\ DownloadThread.schedule_task stopped later
     = (DownloadThread.Raised DownloadThread.not_running, stopped).
Proof.
  intros Hrun Hloop Hserv.
  unfold DownloadThread.schedule_task. rewrite Hrun, Hloop. cbn [negb snd].
  unfold DownloadThread.stop, DownloadThread.isRunning in *.
  cbn [DownloadThread.loop DownloadThread.qthread DownloadThread.serving
       DownloadThread.scheduled DownloadThread.spawned].
  destruct (DownloadThread.qthread self); try discriminate.
  rewrite Hserv. cbn. repeat split; reflexivity.
Qed.

Lemma stop_after_schedule_witness :
  fst (DownloadThread.stop (snd (DownloadThread.schedule_task running_executor audio_job)))
  = DownloadThread.Returned tt
  /\ DownloadThread.isRunning
       (snd (DownloadThread.stop
               (snd (DownloadThread.schedule_task running_executor audio_job)))) = false
  /\ DownloadThread.loop
       (snd (DownloadThread.stop
               (snd (DownloadThread.schedule_task running_executor audio_job))))
     = Some {| DownloadThread.serving := false;
               DownloadThread.scheduled := [audio_job] |}
  /\ DownloadThread.schedule_task
       (snd (DownloadThread.stop
               (snd (DownloadThread.schedule_task running_executor audio_job))))
       video_job
     = (DownloadThread.Raised DownloadThread.not_running,
        snd (DownloadThread.stop
               (snd (DownloadThread.schedule_task running_executor audio_job)))).
Proof.
  exact (stop_after_schedule running_executor
           {| DownloadThread.serving := true; DownloadThread.scheduled := [] |}
           audio_job video_job eq_refl eq_refl eq_refl).
Defined.

(** X10: between [start] and the moment the new thread has set
    [self.loop].  After [start] on an executor that is not running and
    has no loop, the thread counts as running; [schedule_task] then
    passes its guard and raises [AttributeError] on the missing loop,
    scheduling nothing; and [stop] finds [self.loop] unset, returns at
    once and leaves the thread running. *)
Theorem calls_before_loop_is_set (self : DownloadThread.t) (coro : Worker.t) :
  DownloadThread.isRunning self = false ->
  DownloadThread.loop self = None ->
  let started := snd (DownloadThread.start self) in
  DownloadThread.isRunning started = true
  /\ DownloadThread.schedule_task started coro
     = (DownloadThread.Raised
          (AttributeError "'NoneType' object has no attribute 'call_soon_threadsafe'"),
        started)
  /\ DownloadThread.stop started = (DownloadThread.Returned tt, started).
Proof.
  intros Hrun Hloop. unfold DownloadThread.start. rewrite Hrun. cbn [snd].
  unfold DownloadThread.schedule_task, DownloadThread.stop, DownloadThread.isRunning.
  cbn [DownloadThread.loop DownloadThread.qthread]. rewrite Hloop.
  repeat split; reflexivity.
Qed.

Lemma calls_before_loop_is_set_witness :
  DownloadThread.isRunning starting_executor = true
  /\ DownloadThread.schedule_task starting_executor audio_job
     = (DownloadThread.Raised
          (AttributeError "'NoneType' object has no attribute 'call_soon_threadsafe'"),
        starting_executor)
  /\ DownloadThread.stop starting_executor = (DownloadThread.Returned tt, starting_executor).
Proof.
  exact (calls_before_loop_is_set DownloadThread.__init__ audio_job eq_refl eq_refl).
Defined.

(* ====================================================================== *)
(** * How far the percentage is from the exact one *)

(** An operand of value at most [C < 2^c] has a magnitude of at most
    [c]. *)
Lemma magnitude_of_small (N D e C c : Z) :
  0 <= N -> 0 < D -> - scale_exp <= e -> 0 <= c -> e <= c -> C < 2 ^ c ->
  N * 2 ^ (e + scale_exp) <= C * 2 ^ scale_exp * D ->
  Zdigits2 (N / D) + e <= c.
Proof.
  intros HN HD He Hc Hec HCc Hle.
  assert (HeK : 0 <= e + scale_exp) by lia.
  assert (HK : 0 <= scale_exp) by (unfold scale_exp; lia).
  assert (Hlt : N / D < 2 ^ (c - e)).
  { apply Z.div_lt_upper_bound; [exact HD |].
    pose proof (pow2_pos (e + scale_exp) HeK) as Hp.
    pose proof (pow2_pos scale_exp HK) as HpK.
    assert (H1 : 2 ^ (c - e) * 2 ^ (e + scale_exp) = 2 ^ c * 2 ^ scale_exp)
      by (rewrite <- !Z.pow_add_r by lia; f_equal; lia).
    assert (H3 : C * 2 ^ scale_exp * D < 2 ^ c * 2 ^ scale_exp * D).
    { apply Z.mul_lt_mono_pos_r; [exact HD |].
      apply Z.mul_lt_mono_pos_r; [exact HpK | exact HCc]. }
    assert (H2 : N * 2 ^ (e + scale_exp) < D * 2 ^ (c - e) * 2 ^ (e + scale_exp)).
    { replace (D * 2 ^ (c - e) * 2 ^ (e + scale_exp)) with (2 ^ c * 2 ^ scale_exp * D)
        by (rewrite <- H1; ring).
      lia. }
    apply Z.mul_lt_mono_pos_r in H2; assumption. }
  pose proof (Zdigits2_le (N / D) (c - e) (Z.div_pos N D HN HD) ltac:(lia) Hlt). lia.
Qed.

(** The rounding of an operand is less than one step of its grid away
    from it. *)
Lemma round_pair_error (K N D e : Z) :
  0 <= N -> 0 < D -> 0 <= e + K ->
  e <= fexp64 (Zdigits2 (N / D) + e) ->
  N * 2 ^ (e + K) - D * 2 ^ (fexp64 (Zdigits2 (N / D) + e) + K)
  <= pairval K (round_pair N D e) * D
  <= N * 2 ^ (e + K) + D * 2 ^ (fexp64 (Zdigits2 (N / D) + e) + K).
Proof.
  intros HN HD HK HP. rewrite (round_pair_eq N D e HP).
  set (E1 := fexp64 (Zdigits2 (N / D) + e)) in *.
  unfold pairval. cbn [fst snd].
  pose proof (pow2_pos (E1 - e) ltac:(lia)) as Ha.
  pose proof (pow2_pos (e + K) HK) as Hp.
  assert (HS : 2 ^ (E1 + K) = 2 ^ (E1 - e) * 2 ^ (e + K))
    by (rewrite <- Z.pow_add_r by lia; f_equal; lia).
  rewrite HS.
  set (a := 2 ^ (E1 - e)) in *. set (p := 2 ^ (e + K)) in *.
  assert (HD' : 0 < a * D) by (apply Z.mul_pos_pos; assumption).
  pose proof (rne_bounds N (a * D)) as [Hlo Hhi].
  pose proof (Z.div_mod N (a * D) ltac:(lia)) as Hdm.
  pose proof (Z.mod_pos_bound N (a * D) HD') as HR.
  set (m1 := rne N (a * D)) in *.
  assert (H1 : N - a * D <= m1 * (a * D) <= N + a * D) by nia.
  replace (m1 * (a * p) * D) with (m1 * (a * D) * p) by ring.
  replace (D * (a * p)) with (a * D * p) by ring.
  split; nia.
Qed.

Lemma quot_error (d t : Z) :
  0 < t -> 0 < d <= t ->
  d * 2 ^ scale_exp - t * 2 ^ (scale_exp - 52)
  <= sval (quot d t) * t
  <= d * 2 ^ scale_exp + t * 2 ^ (scale_exp - 52).
Proof.
  intros Ht Hd.
  destruct (quot_props d t Ht ltac:(lia)) as (_ & _ & Hv). rewrite (Hv ltac:(lia)).
  pose proof (div_exp_bounds d t) as He.
  assert (HN : 0 <= div_num d t) by (apply div_num_nonneg; lia).
  assert (HeK : 0 <= div_exp d t + scale_exp) by (unfold scale_exp; lia).
  pose proof (div_prec d t ltac:(lia) Ht) as HP.
  pose proof (round_pair_error scale_exp (div_num d t) t (div_exp d t) HN Ht HeK HP) as Herr.
  rewrite div_num_scaled in Herr.
  assert (Hmag : Zdigits2 (div_num d t / t) + div_exp d t <= 1).
  { assert (B1 : - scale_exp <= div_exp d t) by (unfold scale_exp; lia).
    assert (B2 : 1 < 2 ^ 1) by (cbn; lia).
    assert (B3 : div_num d t * 2 ^ (div_exp d t + scale_exp) <= 1 * 2 ^ scale_exp * t).
    { rewrite div_num_scaled.
      pose proof (pow2_pos scale_exp ltac:(unfold scale_exp; lia)). nia. }
    exact (magnitude_of_small (div_num d t) t (div_exp d t) 1 1 HN Ht B1
             ltac:(lia) ltac:(lia) B2 B3). }
  set (E1 := fexp64 (Zdigits2 (div_num d t / t) + div_exp d t)) in *.
  assert (HE1 : E1 <= -52) by (unfold E1; rewrite fexp64_eq; lia).
  assert (HE1lo : -1074 <= E1) by (unfold E1; rewrite fexp64_eq; lia).
  assert (Hpow : 2 ^ (E1 + scale_exp) <= 2 ^ (scale_exp - 52))
    by (apply pow2_le; unfold scale_exp; lia).
  pose proof (pow2_pos (E1 + scale_exp) ltac:(unfold scale_exp; lia)) as Hpos.
  nia.
Qed.

Lemma times100_error (q : spec_float) :
  nonneg_finite (-1074) q -> sval q <= 2 ^ scale_exp ->
  100 * sval q - 2 ^ (scale_exp - 46)
  <= sval (times100 q)
  <= 100 * sval q + 2 ^ (scale_exp - 46).
Proof.
  pose proof (pow2_pos (scale_exp - 46) ltac:(unfold scale_exp; lia)) as Hp46.
  intros [-> | (m & e & -> & He)] Hle.
  - rewrite times100_zero. cbn [sval]. lia.
  - cbn [sval] in Hle |- *.
    rewrite (times100_val m e He Hle).
    pose proof (exponent_of_small m e ltac:(unfold scale_exp; lia) Hle) as He0.
    assert (A3 : - scale_exp <= e - 46) by (unfold scale_exp; lia).
    assert (HeK : 0 <= e - 46 + scale_exp) by lia.
    pose proof (round_pair_error scale_exp (Zpos m * (100 * 2 ^ 46)) 1 (e - 46)
                  ltac:(lia) ltac:(lia) HeK (product_prec m e)) as Herr.
    rewrite (product_scaled m e A3) in Herr.
    assert (Hmag : Zdigits2 (Zpos m * (100 * 2 ^ 46) / 1) + (e - 46) <= 7).
    { assert (B2 : 100 < 2 ^ 7) by (cbn; lia).
      assert (B3 : Zpos m * (100 * 2 ^ 46) * 2 ^ (e - 46 + scale_exp)
                   <= 100 * 2 ^ scale_exp * 1).
      { rewrite (product_scaled m e A3). lia. }
      exact (magnitude_of_small (Zpos m * (100 * 2 ^ 46)) 1 (e - 46) 100 7
               ltac:(lia) ltac:(lia) A3
               ltac:(lia) ltac:(lia) B2 B3). }
    set (E1 := fexp64 (Zdigits2 (Zpos m * (100 * 2 ^ 46) / 1) + (e - 46))) in *.
    assert (HE1 : E1 <= -46) by (unfold E1; rewrite fexp64_eq; lia).
    assert (HE1lo : -1074 <= E1) by (unfold E1; rewrite fexp64_eq; lia).
    assert (Hpow : 2 ^ (E1 + scale_exp) <= 2 ^ (scale_exp - 46))
      by (apply pow2_le; unfold scale_exp; lia).
    lia.
Qed.

Lemma pct_zero (t : Z) : 0 < t -> pct 0 t = 0.
Proof.
  intros Ht. unfold pct. rewrite (quot_zero t Ht), times100_zero. reflexivity.
Qed.

Lemma pct_accuracy (d t : Z) :
  0 < t -> 0 <= d <= t -> d * 100 / t - 1 <= pct d t <= d * 100 / t + 1.
Proof.
  intros Ht Hd.
  destruct (Z.eq_dec d 0) as [->|Hne].
  { rewrite (pct_zero t Ht). cbn [Z.mul]. rewrite Z.div_0_l by lia. lia. }
  destruct (quot_props d t Ht Hd) as (Hq & Hle & _).
  pose proof (quot_error d t Ht ltac:(lia)) as HQ.
  pose proof (times100_error (quot d t) Hq Hle) as HP.
  pose proof (sval_nonneg (times100 (quot d t))) as HP0.
  unfold pct.
  set (Q := sval (quot d t)) in *. set (P := sval (times100 (quot d t))) in *.
  assert (HS : 2 ^ scale_exp = 2 ^ 52 * 2 ^ (scale_exp - 52))
    by (rewrite <- Z.pow_add_r by (unfold scale_exp; lia); f_equal; lia).
  assert (H46 : 2 ^ (scale_exp - 46) = 64 * 2 ^ (scale_exp - 52)).
  { change 64 with (2 ^ 6). rewrite <- Z.pow_add_r by (unfold scale_exp; lia).
    f_equal; lia. }
  pose proof (pow2_pos (scale_exp - 52) ltac:(unfold scale_exp; lia)) as Hh.
  rewrite H46 in HP. rewrite HS in HQ |- *.
  set (h := 2 ^ (scale_exp - 52)) in *.
  assert (H52 : 2 ^ 52 = 4503599627370496) by reflexivity. rewrite H52 in *.
  set (S := 4503599627370496 * h) in *.
  assert (HSpos : 0 < S) by (unfold S; lia).
  pose proof (Z.div_mod P S ltac:(lia)) as Hdm.
  pose proof (Z.mod_pos_bound P S HSpos) as HR.
  set (p := P / S) in *.
  (* |P * t - 100 * d * S| <= 164 * t * h < S * t *)
  assert (Hup : P * t <= 100 * d * S + 164 * t * h) by nia.
  assert (Hdn : 100 * d * S - 164 * t * h <= P * t) by nia.
  assert (H1 : S * (p * t) <= P * t) by nia.
  assert (H2 : P * t < S * ((p + 1) * t)) by nia.
  assert (H3 : 164 * t * h < S * t) by (unfold S; nia).
  split.
  - assert (d * 100 / t < p + 2); [| lia].
    apply Z.div_lt_upper_bound; [exact Ht |].
    assert (S * (100 * d) < S * (t * (p + 2))) by nia.
    apply Z.mul_lt_mono_pos_l in H; [lia | exact HSpos].
  - assert (p - 1 <= d * 100 / t); [| lia].
    apply Z.div_le_lower_bound; [exact Ht |].
    assert (S * (t * (p - 1)) <= S * (d * 100)) by nia.
    apply Z.mul_le_mono_pos_l in H; [exact H | exact HSpos].
Qed.

Lemma percent_spec_in_range (d t : Z) :
  0 < t -> 0 <= d <= t -> percent_spec d t = d * 100 / t.
Proof.
  intros Ht Hd. unfold percent_spec.
  assert (0 <= d * 100 / t) by (apply Z.div_pos; lia).
  assert (d * 100 / t <= 100) by (apply Z.div_le_upper_bound; lia).
  lia.
Qed.

(** X11: the percentage that the callback computes in floating point
    is never more than one away from the percentage of exact
    arithmetic, the floor of [downloaded * 100 / total]. *)
Theorem percent_within_one (downloaded total : Z) :
  0 < total -> 0 <= downloaded <= total ->
  exists p,
    percent_of downloaded total = inr p
    /\ percent_spec downloaded total - 1 <= p <= percent_spec downloaded total + 1.
Proof.
  intros Ht Hd. exists (pct downloaded total).
  split; [apply percent_of_pct; assumption |].
  rewrite (percent_spec_in_range downloaded total Ht Hd).
  apply pct_accuracy; assumption.
Qed.

Lemma percent_within_one_witness :
  exists p,
    percent_of 29 100 = inr p
    /\ percent_spec 29 100 - 1 <= p <= percent_spec 29 100 + 1.
Proof. apply (percent_within_one 29 100); lia. Defined.

Lemma quot_self (t : Z) : 0 < t -> sval (quot t t) = 2 ^ scale_exp.
Proof.
  intros Ht.
  destruct (quot_props t t Ht ltac:(lia)) as (_ & Hle & Hv).
  specialize (Hv Ht).
  pose proof (div_exp_bounds t t) as He.
  assert (HN : 0 <= div_num t t) by (apply div_num_nonneg; lia).
  assert (HeK : 0 <= div_exp t t + scale_exp) by (unfold scale_exp; lia).
  pose proof (div_prec t t Ht Ht) as HP.
  assert (B1 : - scale_exp <= div_exp t t) by (unfold scale_exp; lia).
  assert (B2 : 1 < 2 ^ 1) by (cbn; lia).
  assert (B3 : div_num t t * 2 ^ (div_exp t t + scale_exp) <= 1 * 2 ^ scale_exp * t)
    by (rewrite div_num_scaled; lia).
  pose proof (magnitude_of_small (div_num t t) t (div_exp t t) 1 1 HN Ht B1
                ltac:(lia) ltac:(lia) B2 B3) as Hmag.
  assert (Hge : 1 * 2 ^ (0 + scale_exp)
                <= pairval scale_exp (round_pair (div_num t t) t (div_exp t t))).
  { apply round_pair_ge_grid; try assumption; try lia.
    - rewrite fexp64_eq. lia.
    - rewrite div_num_scaled, Z.add_0_l. lia. }
  rewrite Z.add_0_l in Hge. lia.
Qed.

Lemma times100_one (q : spec_float) :
  nonneg_finite (-1074) q -> sval q = 2 ^ scale_exp ->
  sval (times100 q) = 100 * 2 ^ scale_exp.
Proof.
  pose proof (pow2_pos scale_exp ltac:(unfold scale_exp; lia)) as HK.
  intros [-> | (m & e & -> & He)] Hq; [cbn [sval] in Hq; lia |].
  cbn [sval] in Hq.
  assert (Hle : Zpos m * 2 ^ (e + scale_exp) <= 2 ^ scale_exp) by lia.
  rewrite (times100_val m e He Hle).
  destruct (product_round_small m e He Hle) as (_ & _ & Hup).
  cbv zeta in Hup.
  pose proof (exponent_of_small m e ltac:(unfold scale_exp; lia) Hle) as He0.
  assert (A3 : - scale_exp <= e - 46) by (unfold scale_exp; lia).
  assert (B2 : 100 < 2 ^ 7) by (cbn; lia).
  assert (B3 : Zpos m * (100 * 2 ^ 46) * 2 ^ (e - 46 + scale_exp)
               <= 100 * 2 ^ scale_exp * 1)
    by (rewrite (product_scaled m e A3); lia).
  pose proof (magnitude_of_small (Zpos m * (100 * 2 ^ 46)) 1 (e - 46) 100 7
                ltac:(lia) ltac:(lia) A3 ltac:(lia) ltac:(lia) B2 B3) as Hmag.
  assert (Hge : 100 * 2 ^ (0 + scale_exp)
                <= pairval scale_exp (round_pair (Zpos m * (100 * 2 ^ 46)) 1 (e - 46))).
  { apply round_pair_ge_grid; try lia.
    - apply product_prec.
    - rewrite fexp64_eq. lia.
    - rewrite (product_scaled m e A3), Z.add_0_l. lia. }
  rewrite Z.add_0_l in Hge. lia.
Qed.

Lemma pct_full (t : Z) : 0 < t -> pct t t = 100.
Proof.
  intros Ht. unfold pct.
  destruct (quot_props t t Ht ltac:(lia)) as (Hq & _ & _).
  rewrite (times100_one (quot t t) Hq (quot_self t Ht)).
  apply Z.div_mul. apply Z.pow_nonzero; unfold scale_exp; lia.
Qed.

(** X12: the two ends of a transfer.  For a stream of positive size, a
    callback that reports the whole size as remaining emits 0, and one
    that reports nothing as remaining emits exactly 100: rounding never
    leaves a finished transfer at 99. *)
Theorem on_progress_endpoints (total : Z) :
  0 < total ->
  Worker._on_progress total total = ([Emit (progress 0)], inr tt)
  /\ Worker._on_progress total 0 = ([Emit (progress 100)], inr tt).
Proof.
  intros Ht. split.
  - rewrite (on_progress_pct total total Ht ltac:(lia)).
    rewrite Z.sub_diag, (pct_zero total Ht). reflexivity.
  - rewrite (on_progress_pct total 0 Ht ltac:(lia)).
    rewrite Z.sub_0_r, (pct_full total Ht). reflexivity.
Qed.

Lemma on_progress_endpoints_witness :
  Worker._on_progress 1234567 1234567 = ([Emit (progress 0)], inr tt)
  /\ Worker._on_progress 1234567 0 = ([Emit (progress 100)], inr tt).
Proof. apply (on_progress_endpoints 1234567). lia. Defined.
(* ====================================================================== *)
(** * The strings that [is_valid_proxy] accepts *)

Lemma nullable_lang (r : regex) : nullable r = true <-> lang r "".
Proof.
  split.
  - induction r; cbn; intros H; try discriminate.
    + constructor.
    + apply andb_true_iff in H as [H1 H2].
      change "" with ("" ++ "")%string. constructor; auto.
    + apply orb_true_iff in H as [H|H]; [apply lang_alt_l | apply lang_alt_r]; auto.
    + constructor.
  - intros H. remember "" as s eqn:Hs. induction H; cbn; try discriminate; auto.
    + destruct s1; [| discriminate]. cbn in Hs.
      rewrite (IHlang1 eq_refl), (IHlang2 Hs). reflexivity.
    + rewrite (IHlang Hs). reflexivity.
    + rewrite (IHlang Hs), orb_true_r. reflexivity.
Qed.

Lemma deriv_sound (c : ascii) (r : regex) :
  forall s, lang (deriv c r) s -> lang r (String c s).
Proof.
  induction r; cbn [deriv]; intros s H.
  - inversion H.
  - inversion H.
  - destruct (p c) eqn:Hp; inversion H; subst. constructor; exact Hp.
  - destruct (nullable r1) eqn:Hn.
    + inversion H; subst.
      * match goal with X : lang (ReSeq _ _) _ |- _ => inversion X; subst end.
        change (String c (s1 ++ s2)%string) with (String c s1 ++ s2)%string.
        constructor; auto.
      * change (String c s) with ("" ++ String c s)%string.
        constructor; [apply nullable_lang; exact Hn | auto].
    + inversion H; subst.
      change (String c (s1 ++ s2)%string) with (String c s1 ++ s2)%string.
      constructor; auto.
  - inversion H; subst; [apply lang_alt_l | apply lang_alt_r]; auto.
  - inversion H; subst. constructor; auto.
Qed.

Lemma deriv_complete (r : regex) (s' : string) :
  lang r s' -> forall c s, s' = String c s -> lang (deriv c r) s.
Proof.
  induction 1; intros c0 s0 E; cbn [deriv]; try discriminate.
  - injection E as -> <-. rewrite H. constructor.
  - destruct s1 as [|c1 s1'].
    + cbn in E. subst s2.
      apply nullable_lang in H. rewrite H.
      apply lang_alt_r. apply IHlang2. reflexivity.
    + cbn in E. injection E as -> <-.
      assert (L : lang (ReSeq (deriv c0 r1) r2) (s1' ++ s2)%string)
        by (constructor; [apply IHlang1; reflexivity | assumption]).
      destruct (nullable r1); [apply lang_alt_l |]; exact L.
  - apply lang_alt_l. auto.
  - apply lang_alt_r. auto.
  - injection E as -> <-. constructor; [apply IHlang1; reflexivity | assumption].
Qed.

Lemma fullmatch_lang (s : string) :
  forall r, fullmatch r s = true <-> lang r s.
Proof.
  induction s as [|c s IH]; intros r; cbn [fullmatch].
  - apply nullable_lang.
  - rewrite IH. split; [apply deriv_sound |].
    intros H. exact (deriv_complete r _ H c s eq_refl).
Qed.

Lemma lang_eps_inv (s : string) : lang ReEps s <-> s = "".
Proof.
  split; [intros H; inversion H; reflexivity | intros ->; constructor].
Qed.

Lemma lang_class_inv (p : ascii -> bool) (s : string) :
  lang (ReClass p) s <-> exists c, s = String c "" /\ p c = true.
Proof.
  split.
  - intros H. inversion H; subst. eauto.
  - intros (c & -> & Hc). constructor. exact Hc.
Qed.

Lemma lang_seq_inv (r1 r2 : regex) (s : string) :
  lang (ReSeq r1 r2) s
  <-> exists s1 s2, s = (s1 ++ s2)%string /\ lang r1 s1 /\ lang r2 s2.
Proof.
  split.
  - intros H. inversion H; subst. eauto.
  - intros (s1 & s2 & -> & H1 & H2). constructor; assumption.
Qed.

Lemma lang_alt_inv (r1 r2 : regex) (s : string) :
  lang (ReAlt r1 r2) s <-> lang r1 s \/ lang r2 s.
Proof.
  split.
  - intros H. inversion H; subst; auto.
  - intros [H|H]; [apply lang_alt_l | apply lang_alt_r]; exact H.
Qed.

Lemma lang_opt_inv (r : regex) (s : string) :
  lang (ReOpt r) s <-> lang r s \/ s = "".
Proof. unfold ReOpt. rewrite lang_alt_inv, lang_eps_inv. reflexivity. Qed.

Lemma lang_char_inv (c : ascii) (s : string) :
  lang (ReChar c) s <-> s = String c "".
Proof.
  unfold ReChar. rewrite lang_class_inv. split.
  - intros (c' & -> & Hc). apply Ascii.eqb_eq in Hc. subst. reflexivity.
  - intros ->. exists c. split; [reflexivity | apply Ascii.eqb_refl].
Qed.

Lemma lang_lit_inv (l : string) : forall s, lang (ReLit l) s <-> s = l.
Proof.
  induction l as [|c l IH]; intros s; cbn [ReLit].
  - apply lang_eps_inv.
  - rewrite lang_seq_inv. split.
    + intros (s1 & s2 & -> & H1 & H2).
      apply lang_char_inv in H1. apply IH in H2. subst. reflexivity.
    + intros ->. exists (String c ""), l.
      split; [reflexivity |]. split; [apply lang_char_inv | apply IH]; reflexivity.
Qed.

Lemma lang_star_class (p : ascii -> bool) (s : string) :
  lang (ReStar (ReClass p)) s <-> string_forall p s = true.
Proof.
  split.
  - intros H. remember (ReStar (ReClass p)) as r eqn:Hr.
    induction H; try discriminate; [reflexivity |].
    injection Hr as ->.
    apply lang_class_inv in H as (c' & E & Hc). injection E as -> ->.
    cbn. rewrite Hc. cbn. apply IHlang2. reflexivity.
  - induction s as [|c s IH]; cbn; intros H; [constructor |].
    apply andb_true_iff in H as [Hc Hs].
    change (String c s) with (String c ("" ++ s)%string).
    constructor; [constructor; exact Hc | apply IH; exact Hs].
Qed.

Lemma lang_plus_class (p : ascii -> bool) (s : string) :
  lang (RePlus (ReClass p)) s <-> s <> "" /\ string_forall p s = true.
Proof.
  unfold RePlus. rewrite lang_seq_inv. split.
  - intros (s1 & s2 & -> & H1 & H2).
    apply lang_class_inv in H1 as (c & -> & Hc).
    apply lang_star_class in H2. cbn. rewrite Hc, H2.
    split; [discriminate | reflexivity].
  - intros [Hne H]. destruct s as [|c s]; [contradiction |].
    cbn in H. apply andb_true_iff in H as [Hc Hs].
    exists (String c ""), s. split; [reflexivity |].
    split; [constructor; exact Hc | apply lang_star_class; exact Hs].
Qed.

Lemma lang_upto_class (p : ascii -> bool) (n : nat) :
  forall s,
    lang (ReUpTo n (ReClass p)) s
    <-> string_forall p s = true /\ (1 <= String.length s <= S n)%nat.
Proof.
  induction n as [|n IH]; intros s; cbn [ReUpTo].
  - rewrite lang_class_inv. split.
    + intros (c & -> & Hc). cbn. rewrite Hc. split; [reflexivity | lia].
    + intros [H Hl]. destruct s as [|c [|c' s]]; cbn in Hl; try lia.
      cbn in H. rewrite andb_true_r in H. eauto.
  - rewrite lang_seq_inv. split.
    + intros (s1 & s2 & -> & H1 & H2).
      apply lang_class_inv in H1 as (c & -> & Hc).
      apply lang_opt_inv in H2 as [H2 | ->].
      * apply IH in H2 as [H2 Hl]. cbn. rewrite Hc, H2. split; [reflexivity | lia].
      * cbn. rewrite Hc. split; [reflexivity | lia].
    + intros [H Hl]. destruct s as [|c s]; cbn in Hl; [lia |].
      cbn in H. apply andb_true_iff in H as [Hc Hs].
      exists (String c ""), s. split; [reflexivity |].
      split; [constructor; exact Hc |].
      apply lang_opt_inv. destruct s as [|c' s']; [right; reflexivity | left].
      apply IH. split; [exact Hs | cbn in Hl |- *; lia].
Qed.

(** The strings of the pattern between [^] and [$]. *)
Lemma proxy_pattern_lang (s : string) :
  lang proxy_pattern s
  <-> exists tls host port,
        s = ("http" ++ tls ++ "://" ++ host ++ port)%string
        /\ (tls = "" \/ tls = "s")
        /\ host <> "" /\ string_forall is_host_char host = true
        /\ (port = ""
            \/ exists digits,
                 port = (":" ++ digits)%string
                 /\ string_forall is_digit digits = true
                 /\ (1 <= String.length digits <= 5)%nat).
Proof.
  unfold proxy_pattern. split.
  - intros H.
    apply lang_seq_inv in H as (a & s1 & -> & Ha & H). apply lang_lit_inv in Ha.
    apply lang_seq_inv in H as (tls & s2 & -> & Htls & H).
    apply lang_opt_inv in Htls. rewrite lang_char_inv in Htls.
    apply lang_seq_inv in H as (b & s3 & -> & Hb & H). apply lang_lit_inv in Hb.
    apply lang_seq_inv in H as (host & port & -> & Hhost & Hport).
    apply lang_plus_class in Hhost as [Hne Hhost].
    apply lang_opt_inv in Hport.
    subst a b. exists tls, host, port.
    split; [reflexivity |]. split; [tauto |]. split; [exact Hne |].
    split; [exact Hhost |].
    destruct Hport as [Hport | ->]; [right | left; reflexivity].
    apply lang_seq_inv in Hport as (c & digits & -> & Hc & Hd).
    apply lang_char_inv in Hc. subst c.
    apply lang_upto_class in Hd as [Hd Hl]. eauto.
  - intros (tls & host & port & -> & Htls & Hne & Hhost & Hport).
    apply lang_seq_inv. exists "http", (tls ++ "://" ++ host ++ port)%string.
    split; [reflexivity |]. split; [apply lang_lit_inv; reflexivity |].
    apply lang_seq_inv. exists tls, ("://" ++ host ++ port)%string.
    split; [reflexivity |].
    split; [apply lang_opt_inv; rewrite lang_char_inv; tauto |].
    apply lang_seq_inv. exists "://", (host ++ port)%string.
    split; [reflexivity |]. split; [apply lang_lit_inv; reflexivity |].
    apply lang_seq_inv. exists host, port.
    split; [reflexivity |]. split; [apply lang_plus_class; tauto |].
    apply lang_opt_inv.
    destruct Hport as [-> | (digits & -> & Hd & Hl)]; [right; reflexivity | left].
    apply lang_seq_inv. exists ":", digits.
    split; [reflexivity |]. split; [apply lang_char_inv; reflexivity |].
    apply lang_upto_class. tauto.
Qed.

Lemma chop_final_newline_spec (s : string) :
  forall s', chop_final_newline s = Some s' <-> s = (s' ++ String "010" "")%string.
Proof.
  induction s as [|c s IH]; intros s'.
  - cbn. split; [discriminate | destruct s'; discriminate].
  - destruct s as [|c' s].
    + cbn. destruct (Ascii.eqb c "010") eqn:Hc.
      * apply Ascii.eqb_eq in Hc. subst c. split.
        -- intros E. injection E as <-. reflexivity.
        -- destruct s' as [|a [|b t]]; cbn; intros E; try discriminate; reflexivity.
      * split; [discriminate |].
        destruct s' as [|a [|b t]]; cbn; intros E; try discriminate.
        injection E as ->. rewrite Ascii.eqb_refl in Hc. discriminate.
    + change (chop_final_newline (String c (String c' s)))
        with (option_map (String c) (chop_final_newline (String c' s))).
      destruct (chop_final_newline (String c' s)) as [t|] eqn:Ht; cbn [option_map].
      * pose proof (proj1 (IH t) eq_refl) as Ht'. split.
        -- intros E. injection E as <-. cbn. rewrite <- Ht'. reflexivity.
        -- destruct s' as [|a t']; cbn; intros E; [discriminate |].
           injection E as -> E. apply IH in E. injection E as ->. reflexivity.
      * split; [discriminate |].
        destruct s' as [|a t']; cbn; intros E; [discriminate |].
        injection E as -> E. apply IH in E. discriminate.
Qed.

Lemma string_app_assoc (a b c : string) :
  ((a ++ b) ++ c)%string = (a ++ b ++ c)%string.
Proof. induction a as [|x a IH]; cbn; [| rewrite IH]; reflexivity. Qed.

Lemma string_app_nil_r (a : string) : (a ++ "")%string = a.
Proof. induction a as [|x a IH]; cbn; [| rewrite IH]; reflexivity. Qed.

Lemma string_forall_app (p : ascii -> bool) (a b : string) :
  string_forall p (a ++ b) = string_forall p a && string_forall p b.
Proof.
  induction a as [|x a IH]; cbn; [reflexivity |].
  rewrite IH, andb_assoc. reflexivity.
Qed.

Lemma re_match_to_dollar_lang (r : regex) (s : string) :
  re_match_to_dollar r s = true
  <-> exists body nl,
        s = (body ++ nl)%string /\ lang r body /\ (nl = "" \/ nl = String "010" "").
Proof.
  unfold re_match_to_dollar. rewrite orb_true_iff, fullmatch_lang. split.
  - intros [H | H].
    + exists s, "". rewrite string_app_nil_r. auto.
    + destruct (chop_final_newline s) as [s'|] eqn:E; [| discriminate].
      apply chop_final_newline_spec in E. apply fullmatch_lang in H.
      exists s', (String "010" ""). auto.
  - intros (body & nl & -> & H & [-> | ->]).
    + left. rewrite string_app_nil_r. exact H.
    + right.
      rewrite (proj2 (chop_final_newline_spec _ body) eq_refl).
      apply fullmatch_lang. exact H.
Qed.

(** X13: the strings that the validator accepts.  A proxy is accepted
    exactly when it is empty, or is [http] or [https], [://], a host
    of one or more letters, digits, hyphens and dots, optionally a
    colon and one to five digits, and optionally one final newline.
    Nothing else is checked: not the value of the port, not the shape
    of the host. *)
Theorem is_valid_proxy_iff (proxy : string) :
  is_valid_proxy proxy = true
  <-> proxy = ""
      \/ exists tls host port nl,
           proxy = ("http" ++ tls ++ "://" ++ host ++ port ++ nl)%string
           /\ (tls = "" \/ tls = "s")
           /\ host <> "" /\ string_forall is_host_char host = true
           /\ (port = ""
               \/ exists digits,
                    port = (":" ++ digits)%string
                    /\ string_forall is_digit digits = true
                    /\ (1 <= String.length digits <= 5)%nat)
           /\ (nl = "" \/ nl = String "010" "").
Proof.
  unfold is_valid_proxy.
  destruct (String.eqb proxy "") eqn:E.
  - apply String.eqb_eq in E. tauto.
  - apply String.eqb_neq in E. rewrite re_match_to_dollar_lang. split.
    + intros (body & nl & -> & H & Hnl). right.
      apply proxy_pattern_lang in H as (tls & host & port & -> & H).
      exists tls, host, port, nl.
      split; [| tauto].
      cbn. rewrite !string_app_assoc. cbn. rewrite !string_app_assoc. reflexivity.
    + intros [-> | (tls & host & port & nl & -> & Htls & Hne & Hh & Hp & Hnl)];
        [contradiction |].
      exists ("http" ++ tls ++ "://" ++ host ++ port)%string, nl.
      split.
      { cbn. rewrite !string_app_assoc. cbn. rewrite !string_app_assoc. reflexivity. }
      split; [| exact Hnl].
      apply proxy_pattern_lang. exists tls, host, port. tauto.
Qed.

(** Where a run of characters of a class ends is determined by the
    string: two ways to cut it into such a run and a rest that does
    not begin in the class are the same. *)
Lemma class_run_unique (p : ascii -> bool) (a : string) :
  forall a' x x',
    string_forall p a = true -> string_forall p a' = true ->
    match x with EmptyString => True | String c _ => p c = false end ->
    match x' with EmptyString => True | String c _ => p c = false end ->
    (a ++ x)%string = (a' ++ x')%string ->
    a = a' /\ x = x'.
Proof.
  induction a as [|c a IH]; intros a' x x' Ha Ha' Hx Hx' E.
  - destruct a' as [|c' a']; cbn in E; [auto |].
    subst x. cbn in Ha'. apply andb_true_iff in Ha' as [Hc _]. congruence.
  - destruct a' as [|c' a']; cbn in E.
    + subst x'. cbn in Ha. apply andb_true_iff in Ha as [Hc _]. congruence.
    + injection E as -> E. cbn in Ha, Ha'.
      apply andb_true_iff in Ha as [_ Ha]. apply andb_true_iff in Ha' as [_ Ha'].
      destruct (IH a' x x' Ha Ha' Hx Hx' E) as [-> ->]. auto.
Qed.

(** X14: the port is checked by its number of digits only.  After a
    well-formed scheme and host, a colon and a run of digits are
    accepted exactly when the digits are between one and five: 99999
    and 00000 pass, 100000 does not. *)
Theorem is_valid_proxy_port_digits (tls host digits : string) :
  tls = "" \/ tls = "s" ->
  host <> "" -> string_forall is_host_char host = true ->
  string_forall is_digit digits = true ->
  is_valid_proxy ("http" ++ tls ++ "://" ++ host ++ ":" ++ digits)
  = ((1 <=? String.length digits)%nat && (String.length digits <=? 5)%nat).
Proof.
  intros Htls Hne Hh Hd.
  change (is_valid_proxy ("http" ++ tls ++ "://" ++ host ++ ":" ++ digits))
    with (re_match_to_dollar proxy_pattern
            ("http" ++ tls ++ "://" ++ host ++ ":" ++ digits)).
  destruct ((1 <=? String.length digits)%nat && (String.length digits <=? 5)%nat) eqn:Hlen.
  - apply andb_true_iff in Hlen as [H1 H5].
    apply Nat.leb_le in H1. apply Nat.leb_le in H5.
    apply re_match_to_dollar_lang.
    exists ("http" ++ tls ++ "://" ++ host ++ ":" ++ digits)%string, "".
    split; [rewrite string_app_nil_r; reflexivity |]. split; [| auto].
    apply proxy_pattern_lang. exists tls, host, (":" ++ digits)%string.
    split; [reflexivity |]. split; [exact Htls |]. split; [exact Hne |].
    split; [exact Hh |]. right. exists digits. auto.
  - apply not_true_is_false. intros H.
    apply re_match_to_dollar_lang in H as (body & nl & E & H & Hnl).
    apply proxy_pattern_lang in H
      as (tls' & host' & port' & -> & Htls' & _ & Hh' & Hp').
    assert (E' : (host ++ ":" ++ digits)%string = (host' ++ port' ++ nl)%string).
    { destruct Htls as [-> | ->], Htls' as [-> | ->]; cbn in E;
        try discriminate; injection E as E;
        rewrite string_app_assoc in E; exact E. }
    assert (Hcut : host = host' /\ (":" ++ digits)%string = (port' ++ nl)%string).
    { apply (class_run_unique is_host_char); try assumption; [reflexivity |].
      destruct Hp' as [-> | (d & -> & _)]; [| reflexivity].
      destruct Hnl as [-> | ->]; [exact I | reflexivity]. }
    destruct Hcut as [_ Hcut].
    destruct Hp' as [-> | (d & -> & Hd' & Hl)].
    + destruct Hnl as [-> | ->]; discriminate.
    + cbn in Hcut. injection Hcut as ->.
      destruct Hnl as [-> | ->].
      * rewrite string_app_nil_r in Hlen.
        apply andb_false_iff in Hlen as [Hlen | Hlen];
          apply Nat.leb_gt in Hlen; lia.
      * rewrite string_forall_app in Hd. apply andb_true_iff in Hd as [_ Hd].
        discriminate.
Qed.

Lemma is_valid_proxy_port_digits_witness :
  is_valid_proxy ("http" ++ "s" ++ "://" ++ "proxy.example-1.org" ++ ":" ++ "100000")
  = ((1 <=? String.length "100000")%nat && (String.length "100000" <=? 5)%nat).
Proof.
  apply (is_valid_proxy_port_digits "s" "proxy.example-1.org" "100000");
    [right; reflexivity | discriminate | reflexivity | reflexivity].
Defined.

(* ====================================================================== *)
(** * What [start_download] hands to the executor *)

Lemma rstrip_empty (s : string) : rstrip s = "" -> lstrip s = "".
Proof.
  destruct s as [|c s]; [reflexivity |].
  cbn [rstrip]. destruct (String.eqb (lstrip (String c s)) "") eqn:E.
  - intros _. apply String.eqb_eq. exact E.
  - discriminate.
Qed.

Lemma rstrip_no_final_newline (s : string) :
  forall t, rstrip s <> (t ++ String "010" "")%string.
Proof.
  induction s as [|c s IH]; intros t.
  - destruct t; discriminate.
  - cbn [rstrip]. destruct (String.eqb (lstrip (String c s)) "") eqn:E.
    + destruct t; discriminate.
    + destruct t as [|c0 t]; cbn.
      * intros H. injection H as -> H.
        apply rstrip_empty in H. apply String.eqb_neq in E. apply E.
        exact H.
      * intros H. injection H as _ H. exact (IH t H).
Qed.

Lemma chop_final_newline_strip (s : string) :
  chop_final_newline (strip s) = None.
Proof.
  destruct (chop_final_newline (strip s)) as [t|] eqn:E; [| reflexivity].
  apply chop_final_newline_spec in E.
  exfalso. exact (rstrip_no_final_newline _ t E).
Qed.

Lemma proxy_check_passed (proxy : string) :
  negb (String.eqb proxy "") && negb (is_valid_proxy proxy) = false ->
  is_valid_proxy proxy = true.
Proof.
  unfold is_valid_proxy. destruct (String.eqb proxy ""); cbn; [reflexivity |].
  destruct (re_match_to_dollar proxy_pattern proxy); [reflexivity | discriminate].
Qed.

(** X15: what the window never hands over.  Whatever the fields, the
    file system and the state of the executor, a call of
    [start_download] leaves the jobs of the executor as they were or
    adds one job at the end; and a job that is added has the stripped
    address, which is not empty, an output path that is a directory
    and writable, the requested format, and the stripped proxy, which
    the validator accepts and which does not end in a newline (the
    newline that [$] tolerates never reaches the downloader). *)
Theorem start_download_job_checked (os : MainWindow.OS) (self : MainWindow.t)
    (fmt : string) :
  let self' := snd (MainWindow.start_download os self fmt) in
  MainWindow.jobs self' = MainWindow.jobs self
  \/ exists w,
       MainWindow.jobs self' = MainWindow.jobs self ++ [w]
       /\ Worker.url w = strip (MainWindow.url_edit self)
       /\ Worker.url w <> ""
       /\ MainWindow.isdir os (Worker.out_path w) = true
       /\ MainWindow.access_W_OK os (Worker.out_path w) = true
       /\ Worker.proxy w = strip (MainWindow.proxy_edit self)
       /\ is_valid_proxy (Worker.proxy w) = true
       /\ (forall t, Worker.proxy w <> (t ++ String "010" "")%string)
       /\ Worker.fmt w = fmt.
Proof.
  cbv zeta. unfold MainWindow.start_download.
  destruct (MainWindow.out_path_of os self) as [exc|out]; [left; reflexivity |].
  destruct (String.eqb (strip (MainWindow.url_edit self)) "") eqn:Eu;
    [left; reflexivity |].
  destruct (MainWindow.isdir os out) eqn:Ed; cbn [negb]; [| left; reflexivity].
  destruct (MainWindow.access_W_OK os out) eqn:Ea; cbn [negb]; [| left; reflexivity].
  destruct (negb (String.eqb (strip (MainWindow.proxy_edit self)) "")
            && negb (is_valid_proxy (strip (MainWindow.proxy_edit self)))) eqn:Ep;
    [left; reflexivity |].
  unfold DownloadThread.schedule_task.
  destruct (DownloadThread.isRunning (MainWindow.thread self)); cbn [negb];
    [| left; destruct self; reflexivity].
  unfold MainWindow.jobs.
  destruct (DownloadThread.loop (MainWindow.thread self)) as [l|] eqn:El; cbn.
  - right. eexists. split; [reflexivity |]. cbn.
    split; [reflexivity |].
    split; [apply String.eqb_neq; exact Eu |].
    split; [exact Ed |]. split; [exact Ea |]. split; [reflexivity |].
    split; [apply proxy_check_passed; exact Ep |].
    split; [apply rstrip_no_final_newline | reflexivity].
  - left. rewrite El. reflexivity.
Qed.

(** X16: one click, one outcome.  With the executor running and its
    loop set, and a current directory to fall back on,
    [start_download] returns without raising, and does exactly one of
    two things.  If the stripped address is not empty, the output path
    (the stripped folder, or the current directory when that is empty)
    is a writable directory and the validator accepts the stripped
    proxy, the job is added and the log is untouched.  Otherwise one
    line is added to the log and the executor is untouched. *)
Theorem start_download_schedules_or_logs (os : MainWindow.OS) (self : MainWindow.t)
    (fmt : string) (l : DownloadThread.EventLoop) (cwd : string) :
  DownloadThread.isRunning (MainWindow.thread self) = true ->
  DownloadThread.loop (MainWindow.thread self) = Some l ->
  MainWindow.getcwd os = inr cwd ->
  let url := strip (MainWindow.url_edit self) in
  let folder := strip (MainWindow.folder_edit self) in
  let out_path := if String.eqb folder "" then cwd else folder in
  let proxy := strip (MainWindow.proxy_edit self) in
  exists self',
    MainWindow.start_download os self fmt = (DownloadThread.Returned tt, self')
    /\ if negb (String.eqb url "") && MainWindow.isdir os out_path
          && MainWindow.access_W_OK os out_path && is_valid_proxy proxy
       then MainWindow.jobs self'
            = MainWindow.jobs self
              ++ [{| Worker.url := url; Worker.out_path := out_path;
                     Worker.proxy := proxy; Worker.fmt := fmt |}]
            /\ MainWindow.log self' = MainWindow.log self
       else (exists line, MainWindow.log self' = MainWindow.log self ++ [line])
            /\ MainWindow.thread self' = MainWindow.thread self.
Proof.
  intros Hrun Hloop Hcwd. cbv zeta.
  unfold MainWindow.start_download, MainWindow.out_path_of. rewrite Hcwd.
  set (out := if String.eqb (strip (MainWindow.folder_edit self)) ""
              then cwd else strip (MainWindow.folder_edit self)).
  replace (if String.eqb (strip (MainWindow.folder_edit self)) ""
           then inr cwd else inr (strip (MainWindow.folder_edit self)))
    with (@inr PyExc string out)
    by (unfold out; destruct (String.eqb (strip (MainWindow.folder_edit self)) "");
        reflexivity).
  destruct (String.eqb (strip (MainWindow.url_edit self)) "") eqn:Eu; cbn [negb andb].
  { eexists. split; [reflexivity |]. split; [eexists |]; reflexivity. }
  destruct (MainWindow.isdir os out) eqn:Ed; cbn [negb andb].
  2:{ eexists. split; [reflexivity |]. split; [eexists |]; reflexivity. }
  destruct (MainWindow.access_W_OK os out) eqn:Ea; cbn [negb andb].
  2:{ eexists. split; [reflexivity |]. split; [eexists |]; reflexivity. }
  unfold is_valid_proxy at 1.
  destruct (String.eqb (strip (MainWindow.proxy_edit self)) "") eqn:Epe; cbn [negb andb].
  - assert (Hv : is_valid_proxy (strip (MainWindow.proxy_edit self)) = true)
      by (unfold is_valid_proxy; rewrite Epe; reflexivity).
    rewrite Hv.
    unfold DownloadThread.schedule_task. rewrite Hrun, Hloop. cbn [negb].
    eexists. split; [reflexivity |].
    unfold MainWindow.jobs. cbn. rewrite Hloop. split; reflexivity.
  - assert (Hv : is_valid_proxy (strip (MainWindow.proxy_edit self))
                 = re_match_to_dollar proxy_pattern (strip (MainWindow.proxy_edit self)))
      by (unfold is_valid_proxy; rewrite Epe; reflexivity).
    rewrite Hv.
    destruct (re_match_to_dollar proxy_pattern (strip (MainWindow.proxy_edit self)));
      cbn [negb].
    + unfold DownloadThread.schedule_task. rewrite Hrun, Hloop. cbn [negb].
      eexists. split; [reflexivity |].
      unfold MainWindow.jobs. cbn. rewrite Hloop. split; reflexivity.
    + eexists. split; [reflexivity |]. split; [eexists |]; reflexivity.
Qed.

Lemma start_download_schedules_or_logs_witness :
  exists self',
    MainWindow.start_download os_sample window_sample "audio"
    = (DownloadThread.Returned tt, self')
    /\ MainWindow.jobs self'
       = [{| Worker.url := "https://youtu.be/dQw4w9WgXcQ"; Worker.out_path := "/tmp";
             Worker.proxy := "http://127.0.0.1:8881"; Worker.fmt := "audio" |}]
    /\ MainWindow.log self' = [].
Proof.
  exact (start_download_schedules_or_logs os_sample window_sample "audio"
           {| DownloadThread.serving := true; DownloadThread.scheduled := [] |}
           "/home/user" eq_refl eq_refl eq_refl).
Defined.
